(** * Compass: bearing computation and needle animation

    A shallow embedding of [src/components/Compass.tsx].

    Numbers.  The component computes with JavaScript numbers.  They are
    modelled here as exact rationals [Q]: every literal of the source
    (0.18, 0.3, 22.5, 180, 360, 540, 16) is a rational, [+ - * /] are the
    field operations, [%] is the truncated remainder of ECMAScript (the
    result takes the sign of the dividend) and [Math.round] rounds to the
    nearest integer with ties going toward +infinity.  Rounding error of
    binary floating point, NaN and infinities are outside this model.
    Where leaving the finite range decides a property, the arithmetic of
    module [Checked] is used instead: a result too large for a binary64
    number is no longer a finite number there.
    [===] on numbers is [Qeq_bool]; equality of numbers in statements is
    [==] unless the code assigns the very same value, where it is [=].

    Host functions.  [Math.PI], [Math.sin], [Math.cos] and [Math.atan2]
    belong to the JavaScript engine; the record [MathHost] stands for the
    engine's [Math] object and [calculateBearing] takes it as a
    parameter.  [requestAnimationFrame] and [cancelAnimationFrame] are
    modelled by a queue of pending callbacks kept in the state. *)

From Stdlib Require Import QArith Qround Qabs ZArith List String Bool Lia Lqa.
From Stdlib Require Finite.
Import ListNotations.

Local Open Scope Q_scope.

(** ** JavaScript arithmetic on exact numbers *)

Module JS.

(** Integer part, rounding toward zero. *)
Definition Qtrunc (x : Q) : Z := Z.quot (Qnum x) (Zpos (Qden x)).

(** [n % d] for a non-zero [d]: [n - d * q] where [q] is the quotient
    truncated toward zero.  (For [d = 0] JavaScript yields NaN; every
    divisor in the component is the literal 360 or 16.) *)
Definition rem (n d : Q) : Q := n - d * inject_Z (Qtrunc (n / d)).

(** [Math.round]: nearest integer, halves toward +infinity. *)
Definition round (x : Q) : Z := Qfloor (x + (1 # 2)).

(** [Math.abs]. *)
Definition abs (x : Q) : Q := Qabs x.

(** [x < y] as a boolean test. *)
Definition ltb (x y : Q) : bool := if Qlt_le_dec x y then true else false.

(** [x === y] on numbers. *)
Definition eqb (x y : Q) : bool := Qeq_bool x y.

End JS.

Infix "%%" := JS.rem (at level 40, left associativity) : Q_scope.

(** ** Data model *)

(** [{ lat: number; lng: number }] *)
Record GeoPoint := { lat : Q; lng : Q }.

(** The part of the engine's [Math] object the component uses. *)
Record MathHost := {
  PI : Q;
  sin : Q -> Q;
  cos : Q -> Q;
  atan2 : Q -> Q -> Q
}.

(** What the theorems on bearings ask of the engine: [Math.PI] is
    positive and [Math.atan2] returns an angle in [-PI, PI]. *)
Definition MathRange (Math : MathHost) : Prop :=
  0 < PI Math /\ forall y x, - PI Math <= atan2 Math y x <= PI Math.

(** The table of [bearingToDirection]. *)
Definition directions : list string :=
  ["N"; "NNE"; "NE"; "ENE"; "E"; "ESE"; "SE"; "SSE";
   "S"; "SSW"; "SW"; "WSW"; "W"; "WNW"; "NW"; "NNW"]%string.

(** The last assignment of [calculateBearing]:
    [bearing = (bearing + 360) % 360]. *)
Definition normalizeBearing (bearing : Q) : Q := (bearing + 360) %% 360.

(** [Math.round(bearing / 22.5) % 16] *)
Definition directionIndex (bearing : Q) : Z :=
  Z.rem (JS.round (bearing / 22.5)) 16.

(** [directions[index]]; [None] is JavaScript's [undefined], the value of
    an array read at a negative or too large index. *)
Definition bearingToDirection (bearing : Q) : option string :=
  let index := directionIndex bearing in
  if (index <? 0)%Z then None else nth_error directions (Z.to_nat index).

(** The shortest angular distance computed at the head of [step]:
    [((target - current + 540) % 360) - 180]. *)
Definition delta (target current : Q) : Q :=
  (target - current + 540) %% 360 - 180.

(** A callback waiting in the host's animation-frame queue: the handle
    returned by [requestAnimationFrame] and the [degrees] value captured
    by the [step] closure that was registered. *)
Record Frame := { frameId : positive; frameTarget : Q }.

(** The state of one mounted component: the three [useState] cells, the
    two [useRef] cells, and the host's frame queue. *)
Record State := mkState {
  direction : option string;
  degrees : Q;
  animatedDeg : Q;
  animRef : Q;
  rafRef : option positive;
  nextHandle : positive;
  pending : list Frame
}.

(** [animRef.current = a; setAnimatedDeg(animRef.current)] *)
Definition setAngle (a : Q) (st : State) : State :=
  mkState (direction st) (degrees st) a a
          (rafRef st) (nextHandle st) (pending st).

(** [rafRef.current = r] *)
Definition setRafRef (r : option positive) (st : State) : State :=
  mkState (direction st) (degrees st) (animatedDeg st) (animRef st)
          r (nextHandle st) (pending st).

(** The host replaces its queue. *)
Definition setPending (p : list Frame) (st : State) : State :=
  mkState (direction st) (degrees st) (animatedDeg st) (animRef st)
          (rafRef st) (nextHandle st) p.

(** [requestAnimationFrame(step)] where the closure captured [target]. *)
Definition requestAnimationFrame (target : Q) (st : State) : positive * State :=
  let id := nextHandle st in
  (id, mkState (direction st) (degrees st) (animatedDeg st) (animRef st)
               (rafRef st) (Pos.succ id)
               (pending st ++ [{| frameId := id; frameTarget := target |}])).

(** [cancelAnimationFrame(id)] *)
Definition cancelAnimationFrame (id : positive) (st : State) : State :=
  setPending (filter (fun f => negb (Pos.eqb (frameId f) id)) (pending st)) st.

(** [if (rafRef.current) cancelAnimationFrame(rafRef.current)] *)
Definition cancelPrevious (st : State) : State :=
  match rafRef st with
  | Some id => cancelAnimationFrame id st
  | None => st
  end.

(** The body of [step], for the closure whose captured [degrees] is
    [target]. *)
Definition step (target : Q) (st : State) : State :=
  let current := animRef st in
  let d := delta target current in
  if JS.ltb (JS.abs d) 0.3 then
    setAngle target st
  else
    let st1 := setAngle ((current + d * 0.18 + 360) %% 360) st in
    let (id, st2) := requestAnimationFrame target st1 in
    setRafRef (Some id) st2.

(** The host fires the oldest pending frame: the callback leaves the queue
    and runs. *)
Definition runFrame (st : State) : State :=
  match pending st with
  | [] => st
  | f :: rest => step (frameTarget f) (setPending rest st)
  end.

(** [n] frames in a row. *)
Fixpoint runFrames (n : nat) (st : State) : State :=
  match n with
  | O => st
  | S k => runFrames k (runFrame st)
  end.

(** The second effect, run on mount and whenever [degrees] changed, and its
    cleanup. *)
Definition animationEffect (st : State) : State :=
  let st1 := cancelPrevious st in
  let (id, st2) := requestAnimationFrame (degrees st1) st1 in
  setRafRef (Some id) st2.

(** [if (rafRef.current) cancelAnimationFrame(rafRef.current);
     rafRef.current = null] *)
Definition animationCleanup (st : State) : State :=
  setRafRef None (cancelPrevious st).

(** The state of a component before its effects have run. *)
Definition initialState : State :=
  mkState (Some "N"%string) 0 0 0 None 1%positive [].

Section Component.

(** The engine's [Math] object. *)
Variable Math : MathHost.

(** [calculateBearing]; [None] is a null argument, which the guard
    answers with 0 before any coordinate is read. *)
Definition calculateBearing (start end_ : option GeoPoint) : Q :=
  match start, end_ with
  | Some s, Some e =>
      if JS.eqb (lat s) (lat e) && JS.eqb (lng s) (lng e) then 0
      else
        let lat1 := lat s * PI Math / 180 in
        let lat2 := lat e * PI Math / 180 in
        let dLng := (lng e - lng s) * PI Math / 180 in
        let y := sin Math dLng * cos Math lat2 in
        let x := cos Math lat1 * sin Math lat2
                 - sin Math lat1 * cos Math lat2 * cos Math dLng in
        let bearing := atan2 Math y x * 180 / PI Math in
        normalizeBearing bearing
  | _, _ => 0
  end.

(** The first effect: [if (busLocation && previousLocation) { ... }]. *)
Definition locationEffect (busLocation previousLocation : option GeoPoint)
                          (st : State) : State :=
  match busLocation, previousLocation with
  | Some _, Some _ =>
      let bearing := calculateBearing previousLocation busLocation in
      mkState (bearingToDirection bearing) bearing (animatedDeg st)
              (animRef st) (rafRef st) (nextHandle st) (pending st)
  | _, _ => st
  end.

(** New props arrive: the first effect runs; when it changed [degrees],
    the second effect is cleaned up and run again. *)
Definition update (busLocation previousLocation : option GeoPoint)
                  (st : State) : State :=
  let st1 := locationEffect busLocation previousLocation st in
  if JS.eqb (degrees st1) (degrees st) then st1
  else animationEffect (animationCleanup st1).

(** States a mounted component can be in: the second effect has run on
    the initial state; then props arrive and frames fire in any order. *)
Inductive reachable : State -> Prop :=
| reach_mount : reachable (animationEffect initialState)
| reach_update bus prev st :
    reachable st -> reachable (update bus prev st)
| reach_frame st :
    reachable st -> reachable (runFrame st).

End Component.

(** ** Definitions used in the statements *)

(** The normalisation as the specification writes it:
    [((bearing % 360) + 360) % 360]. *)
Definition specNormalize (bearing : Q) : Q := (bearing %% 360 + 360) %% 360.

(** The angle the ease branch of [step] stores. *)
Definition eased (target current : Q) : Q :=
  (current + delta target current * 0.18 + 360) %% 360.

(** The distance below which [k] eases followed by one snap suffice. *)
Fixpoint reach (k : nat) : Q :=
  match k with
  | O => 0.3
  | S k' => reach k' / 0.82
  end.

(** Every angle the component holds is a bearing in [0, 360). *)
Definition Inv (st : State) : Prop :=
  (0 <= degrees st < 360) /\ (0 <= animRef st < 360) /\
  (0 <= animatedDeg st < 360) /\
  Forall (fun f => 0 <= frameTarget f < 360) (pending st).

(** A coarse engine for running the component on concrete positions along
    the axes: 355/113 for pi, the small-angle values [x] and [1] for sine
    and cosine, and an arctangent that answers PI/2 above the x axis,
    -PI/2 below it, and PI or 0 on its negative or positive half. *)
Definition coarseMath : MathHost := {|
  PI := 355 # 113;
  sin := fun x => x;
  cos := fun _ => 1;
  atan2 := fun y x =>
    if JS.ltb 0 y then (355 # 113) / 2
    else if JS.ltb y 0 then - (355 # 113) / 2
    else if JS.ltb x 0 then 355 # 113
    else 0
|}.

(** The origin and the point one degree of longitude to its east. *)
Definition origin : GeoPoint := {| lat := 0; lng := 0 |}.
Definition eastOfOrigin : GeoPoint := {| lat := 0; lng := 1 |}.

(** ** The rendered output *)

(** [neonGradient ?? ['#6EE7B7', '#3B82F6']] *)
Definition gradientOf (neonGradient : option (string * string))
  : string * string :=
  match neonGradient with
  | Some g => g
  | None => ("#6EE7B7", "#3B82F6")%string
  end.

(** The number printed under the label: [Math.round(animatedDeg)]. *)
Definition degreeText (st : State) : Z := JS.round (animatedDeg st).

(** One [<line>] of the dial. *)
Record TickLine := {
  key : Z;
  x1 : Q;
  y1 : Q;
  x2 : Q;
  y2 : Q;
  stroke : string;
  strokeWidth : Q
}.

(** [i % 90 === 0] and [i % 45 === 0] *)
Definition isCardinal (i : Z) : bool := (Z.rem i 90 =? 0)%Z.
Definition isIntercardinal (i : Z) : bool := (Z.rem i 45 =? 0)%Z.

(** [isCardinal ? 12 : isIntercardinal ? 8 : 4] *)
Definition tickLength (i : Z) : Q :=
  if isCardinal i then 12 else if isIntercardinal i then 8 else 4.

(** The callback of the tick-mark [map], at index [i]. *)
Definition tickMark (Math : MathHost) (gradient : string * string) (i : Z)
  : TickLine :=
  let angle := (inject_Z i * PI Math) / 180 in
  let length := tickLength i in
  {| key := i;
     x1 := 100 + 90 * sin Math angle;
     y1 := 100 - 90 * cos Math angle;
     x2 := 100 + (90 - length) * sin Math angle;
     y2 := 100 - (90 - length) * cos Math angle;
     stroke := if isCardinal i then fst gradient
               else "rgba(255,255,255,0.3)"%string;
     strokeWidth := if isCardinal i then 1.5 else 0.5 |}.

(** [[...Array(360)].map((_, i) => ...)] *)
Definition tickMarks (Math : MathHost) (gradient : string * string)
  : list TickLine :=
  map (fun i => tickMark Math gradient (Z.of_nat i)) (seq 0 360).

(** ** Further definitions used in statements *)

(** At most one [step] is waiting, the one [rafRef] names, and it heads
    for the stored bearing; with none waiting the needle rests on the
    bearing. *)
Definition OneFrame (st : State) : Prop :=
  animatedDeg st = animRef st /\
  ((pending st = [] /\ animRef st == degrees st) \/
   (exists id t, pending st = [Build_Frame id t] /\
                 rafRef st = Some id /\ t == degrees st)).

(** An engine whose sine and cosine lie in [-1, 1]. *)
Definition SineBounded (Math : MathHost) : Prop :=
  forall a, (-1 <= sin Math a <= 1) /\ (-1 <= cos Math a <= 1).

(** An engine as every JavaScript engine is: [Math.PI] between 3 and 4,
    sine and cosine in [-1, 1], [Math.atan2] in [-PI, PI]. *)
Definition MathBounded (Math : MathHost) : Prop :=
  (3 <= PI Math <= 4) /\ SineBounded Math /\
  forall y x, - PI Math <= atan2 Math y x <= PI Math.

(** ** Arithmetic that can leave the finite range *)

Module Checked.

(** A binary64 operation whose result has magnitude [2^1024 - 2^970] or
    more returns an infinity. *)
Definition overflowBound : Q := inject_Z (2 ^ 1024 - 2 ^ 970).

(** A number as an operation returns it: [None] stands for a value that
    is not a finite number, NaN or an infinity. *)
Definition finite (q : Q) : option Q :=
  if JS.ltb (Qabs q) overflowBound then Some q else None.

(** [+], [-], [*], [/] by a non-zero constant and [%] by a non-zero
    constant: an operand that is not finite gives a result that is not
    finite. *)
Definition lift2 (f : Q -> Q -> Q) (a b : option Q) : option Q :=
  match a, b with
  | Some x, Some y => finite (f x y)
  | _, _ => None
  end.

Definition add := lift2 Qplus.
Definition sub := lift2 Qminus.
Definition mul := lift2 Qmult.
Definition div := lift2 Qdiv.
Definition rem := lift2 JS.rem.

(** [Math.sin] and [Math.cos]: NaN for NaN and for an infinity. *)
Definition call1 (f : Q -> Q) (a : option Q) : option Q :=
  match a with
  | Some x => finite (f x)
  | None => None
  end.

(** [Math.atan2]: NaN when an argument is NaN.  (Its arguments below are
    sums of products of sines and cosines, which are never infinite.) *)
Definition call2 (f : Q -> Q -> Q) (a b : option Q) : option Q :=
  lift2 f a b.

(** [calculateBearing] with every operation in this arithmetic; the
    coordinates are finite numbers, the result [None] is NaN. *)
Definition calculateBearing (Math : MathHost) (start end_ : option GeoPoint)
  : option Q :=
  match start, end_ with
  | Some s, Some e =>
      if JS.eqb (lat s) (lat e) && JS.eqb (lng s) (lng e) then Some 0
      else
        let pi := Some (PI Math) in
        let lat1 := div (mul (Some (lat s)) pi) (Some 180) in
        let lat2 := div (mul (Some (lat e)) pi) (Some 180) in
        let dLng := div (mul (sub (Some (lng e)) (Some (lng s))) pi)
                        (Some 180) in
        let y := mul (call1 (sin Math) dLng) (call1 (cos Math) lat2) in
        let x := sub (mul (call1 (cos Math) lat1) (call1 (sin Math) lat2))
                     (mul (mul (call1 (sin Math) lat1) (call1 (cos Math) lat2))
                          (call1 (cos Math) dLng)) in
        let bearing := div (mul (call2 (atan2 Math) y x) (Some 180)) pi in
        rem (add bearing (Some 360)) (Some 360)
  | _, _ => Some 0
  end.

End Checked.

(** Coordinates of magnitude up to [10^300], far above any latitude or
    longitude and far below the largest binary64 number. *)
Definition coordinateBound : Q := inject_Z (10 ^ 300).

Definition boundedPoint (p : option GeoPoint) : Prop :=
  match p with
  | Some g => Qabs (lat g) <= coordinateBound /\ Qabs (lng g) <= coordinateBound
  | None => True
  end.

(** A point with a finite latitude too large to be scaled by [Math.PI]. *)
Definition farPoint : GeoPoint := {| lat := inject_Z (10 ^ 308); lng := 0 |}.

(** ** Runs with every bearing in range *)

(** What a position update does to the state once the bearing is
    computed: [setDegrees(bearing)],
    [setDirection(bearingToDirection(bearing))], and, when [degrees]
    changed, the cleanup and a new run of the animation effect. *)
Definition setBearing (bearing : Q) (st : State) : State :=
  let st1 := mkState (bearingToDirection bearing) bearing (animatedDeg st)
                     (animRef st) (rafRef st) (nextHandle st) (pending st) in
  if JS.eqb (degrees st1) (degrees st) then st1
  else animationEffect (animationCleanup st1).

(** States of a mounted component in a run in which every bearing stored
    in [degrees] lies in [0, 360). *)
Inductive tracking : State -> Prop :=
| track_mount : tracking (animationEffect initialState)
| track_bearing bearing st :
    tracking st -> 0 <= bearing < 360 -> tracking (setBearing bearing st)
| track_frame st :
    tracking st -> tracking (runFrame st).


(** An engine on the rational points of the unit circle: the half-angle
    parametrisation with [t = a / 2]. *)
Definition unitMath : MathHost := {|
  PI := 355 # 113;
  sin := fun a => a / (1 + a * a / 4);
  cos := fun a => (1 - a * a / 4) / (1 + a * a / 4);
  atan2 := fun y x =>
    if JS.ltb 0 y then (355 # 113) / 2
    else if JS.ltb y 0 then - (355 # 113) / 2
    else if JS.ltb x 0 then 355 # 113
    else 0
|}.

(** ** Facts about the JavaScript operators *)

Lemma Qtrunc_nonneg (x : Q) : 0 <= x -> JS.Qtrunc x = Qfloor x.
Proof.
  destruct x as [n d]; unfold JS.Qtrunc, Qfloor, Qle; simpl; intros H.
  apply Z.quot_div_nonneg; lia.
Qed.

Lemma Qtrunc_comp (x y : Q) : x == y -> JS.Qtrunc x = JS.Qtrunc y.
Proof.
  intros E. destruct (Qlt_le_dec x 0) as [Hn | Hp].
  - assert (Hx : 0 <= - x) by lra.
    assert (Hy : 0 <= - y) by lra.
    assert (Ex : JS.Qtrunc x = (- JS.Qtrunc (- x))%Z).
    { destruct x as [n d]; unfold JS.Qtrunc; simpl.
      rewrite Z.quot_opp_l by lia. lia. }
    assert (Ey : JS.Qtrunc y = (- JS.Qtrunc (- y))%Z).
    { destruct y as [n d]; unfold JS.Qtrunc; simpl.
      rewrite Z.quot_opp_l by lia. lia. }
    rewrite Ex, Ey, !Qtrunc_nonneg by assumption.
    now rewrite E.
  - rewrite !Qtrunc_nonneg by lra. now rewrite E.
Qed.

#[export] Instance rem_comp : Proper (Qeq ==> Qeq ==> Qeq) JS.rem.
Proof.
  intros a a' Ea b b' Eb. unfold JS.rem.
  rewrite (Qtrunc_comp (a / b) (a' / b')) by now rewrite Ea, Eb.
  now rewrite Ea, Eb.
Qed.

(** For a non-negative dividend and a positive divisor, [%] is the usual
    remainder: it lies in [0, d). *)
Lemma rem_range (n d : Q) : 0 <= n -> 0 < d -> 0 <= n %% d < d.
Proof.
  intros Hn Hd. unfold JS.rem.
  assert (Hq : 0 <= n / d) by (apply Qle_shift_div_l; lra).
  rewrite Qtrunc_nonneg by assumption.
  pose proof (Qfloor_le (n / d)) as Hlo.
  pose proof (Qlt_floor (n / d)) as Hhi.
  rewrite inject_Z_plus in Hhi. change (inject_Z 1) with 1 in Hhi.
  set (q := inject_Z (Qfloor (n / d))) in *.
  assert (E : n == d * (n / d)) by (field; lra).
  split.
  - assert (d * q <= d * (n / d)) by (apply Qmult_le_l; assumption).
    lra.
  - assert (d * (n / d) < d * (q + 1)) by (apply Qmult_lt_l; assumption).
    lra.
Qed.

(** A characterisation: the remainder of [k * d + r] with [0 <= r < d]. *)
Lemma rem_unique (n d r : Q) (k : Z) :
  0 < d -> 0 <= r < d -> (0 <= k)%Z -> n == inject_Z k * d + r -> n %% d == r.
Proof.
  intros Hd Hr Hk E.
  assert (Hk' : 0 <= inject_Z k) by (change 0 with (inject_Z 0); now rewrite <- Zle_Qle).
  assert (Hn : 0 <= n) by nra.
  unfold JS.rem.
  assert (Hq : 0 <= n / d) by (apply Qle_shift_div_l; lra).
  rewrite Qtrunc_nonneg by assumption.
  assert (Q1 : n / d == inject_Z k + r / d) by (rewrite E; field; lra).
  assert (F : Qfloor (n / d) = k).
  { assert (0 <= r / d) by (apply Qle_shift_div_l; lra).
    assert (r / d < 1) by (apply Qlt_shift_div_r; lra).
    pose proof (Qfloor_le (n / d)) as Hlo.
    pose proof (Qlt_floor (n / d)) as Hhi.
    rewrite inject_Z_plus in Hhi. change (inject_Z 1) with 1 in Hhi.
    assert (L1 : inject_Z (Qfloor (n / d)) < inject_Z (k + 1)).
    { rewrite inject_Z_plus. change (inject_Z 1) with 1. lra. }
    assert (L2 : inject_Z k < inject_Z (Qfloor (n / d) + 1)).
    { rewrite inject_Z_plus. change (inject_Z 1) with 1. lra. }
    rewrite <- Zlt_Qlt in L1, L2. lia. }
  rewrite F. lra.
Qed.

(** On integral operands [%] is [Z.rem]; this is how the index computation
    [Math.round(...) % 16] is embedded below. *)
Lemma rem_inject_Z (a b : Z) :
  b <> 0%Z -> inject_Z a %% inject_Z b == inject_Z (Z.rem a b).
Proof.
  intros Hb. unfold JS.rem.
  assert (T : JS.Qtrunc (inject_Z a / inject_Z b) = Z.quot a b).
  { unfold JS.Qtrunc, Qdiv, Qinv, Qmult, inject_Z; simpl.
    destruct b as [ | p | p]; [congruence | | ]; simpl.
    - now rewrite Z.mul_1_r.
    - change (Z.neg p) with (- Z.pos p)%Z.
      rewrite Z.quot_opp_r by lia.
      replace (a * -1)%Z with (- a)%Z by lia.
      rewrite Z.quot_opp_l by lia. reflexivity. }
  rewrite T. unfold Qminus.
  rewrite <- inject_Z_mult, <- inject_Z_opp, <- inject_Z_plus.
  apply inject_Z_injective.
  pose proof (Z.quot_rem' a b). lia.
Qed.

Lemma ltb_true (x y : Q) : JS.ltb x y = true <-> x < y.
Proof. unfold JS.ltb; destruct (Qlt_le_dec x y); split; intros; try easy; lra. Qed.

Lemma ltb_false (x y : Q) : JS.ltb x y = false <-> y <= x.
Proof. unfold JS.ltb; destruct (Qlt_le_dec x y); split; intros; try easy; lra. Qed.

(** Rounding a half-integer goes up. *)
Lemma round_half (k : Z) : JS.round (inject_Z k + (1 # 2)) = (k + 1)%Z.
Proof.
  unfold JS.round.
  assert (E : inject_Z k + (1 # 2) + (1 # 2) == inject_Z (k + 1)).
  { rewrite inject_Z_plus. change (inject_Z 1) with 1. lra. }
  rewrite E. apply Qfloor_Z.
Qed.

(** ** The remainder on small and on decomposed dividends *)

Lemma Qtrunc_small (x : Q) : -1 < x < 1 -> JS.Qtrunc x = 0%Z.
Proof.
  intros [Hlo Hhi].
  assert (F : forall y, 0 <= y < 1 -> JS.Qtrunc y = 0%Z).
  { intros y [H0 H1]. rewrite Qtrunc_nonneg by assumption.
    pose proof (Qfloor_le y) as L. pose proof (Qlt_floor y) as U.
    rewrite inject_Z_plus in U. change (inject_Z 1) with 1 in U.
    assert (L1 : inject_Z (Qfloor y) < inject_Z 1) by (change (inject_Z 1) with 1; lra).
    assert (L2 : inject_Z (-1) < inject_Z (Qfloor y)) by (change (inject_Z (-1)) with (-1#1); lra).
    rewrite <- Zlt_Qlt in L1, L2. lia. }
  destruct (Qlt_le_dec x 0) as [Hn | Hp].
  - assert (E : JS.Qtrunc x = (- JS.Qtrunc (- x))%Z).
    { destruct x as [n d]; unfold JS.Qtrunc; simpl.
      rewrite Z.quot_opp_l by lia. lia. }
    rewrite E, F by lra. reflexivity.
  - apply F; lra.
Qed.

Lemma rem_small (n d : Q) : 0 < d -> - d < n < d -> n %% d == n.
Proof.
  intros Hd [Hlo Hhi]. unfold JS.rem.
  rewrite Qtrunc_small.
  - change (inject_Z 0) with 0. lra.
  - split.
    + apply Qlt_shift_div_l; lra.
    + apply Qlt_shift_div_r; lra.
Qed.

Lemma rem_decomp (n d : Q) :
  n == inject_Z (JS.Qtrunc (n / d)) * d + n %% d.
Proof. unfold JS.rem. ring. Qed.

Lemma inject_Z_nonneg (k : Z) : -1 < inject_Z k -> (0 <= k)%Z.
Proof.
  intros H. change (-1) with (inject_Z (-1)) in H.
  rewrite <- Zlt_Qlt in H. lia.
Qed.

(** ** The signed delta of [step] *)

(** Whenever the dividend [target - current + 540] is not negative, the
    delta lies in [-180, 180). *)
Lemma delta_bounds (target current : Q) :
  - 540 <= target - current -> -180 <= delta target current < 180.
Proof.
  intros H. unfold delta.
  pose proof (rem_range (target - current + 540) 360) as R.
  lra.
Qed.

Lemma delta_bounds_in_range (target current : Q) :
  0 <= current < 360 -> 0 <= target < 360 ->
  -180 <= delta target current < 180.
Proof. intros Hc Ht. apply delta_bounds. lra. Qed.

#[export] Instance delta_comp : Proper (Qeq ==> Qeq ==> Qeq) delta.
Proof. intros t t' Et c c' Ec. unfold delta. now rewrite Et, Ec. Qed.

Lemma delta_same (target current : Q) :
  current == target -> delta target current == 0.
Proof.
  intros E. unfold delta.
  assert (R : (target - current + 540) %% 360 == 180).
  { apply (rem_unique _ _ _ 1); try lra; try lia. rewrite E. ring. }
  lra.
Qed.

(** ** What one call of [step] does *)

Lemma step_snap (target : Q) (st : State) :
  Qabs (delta target (animRef st)) < 0.3 ->
  step target st = setAngle target st.
Proof.
  intros H. unfold step, JS.abs.
  apply ltb_true in H. now rewrite H.
Qed.

Lemma step_ease (target : Q) (st : State) :
  0.3 <= Qabs (delta target (animRef st)) ->
  step target st =
  mkState (direction st) (degrees st)
          ((animRef st + delta target (animRef st) * 0.18 + 360) %% 360)
          ((animRef st + delta target (animRef st) * 0.18 + 360) %% 360)
          (Some (nextHandle st)) (Pos.succ (nextHandle st))
          (pending st ++ [Build_Frame (nextHandle st) target]).
Proof.
  intros H. unfold step, JS.abs.
  apply ltb_false in H. now rewrite H.
Qed.

Lemma eased_range (target current : Q) :
  0 <= current < 360 -> 0 <= target < 360 ->
  0 <= eased target current < 360.
Proof.
  intros Hc Ht. unfold eased.
  pose proof (delta_bounds_in_range target current Hc Ht) as D.
  apply rem_range; lra.
Qed.

(** Easing closes 18% of the gap: the delta seen by the next tick is
    0.82 times the present one. *)
Lemma delta_eased (target current : Q) :
  0 <= current < 360 -> 0 <= target < 360 ->
  delta target (eased target current) == 0.82 * delta target current.
Proof.
  intros Hc Ht.
  pose proof (delta_bounds_in_range target current Hc Ht) as D.
  pose proof (eased_range target current Hc Ht) as R.
  pose proof (rem_decomp (target - current + 540) 360) as E1.
  pose proof (rem_decomp (current + delta target current * 0.18 + 360) 360) as E2.
  fold (eased target current) in E2.
  assert (Ed : (target - current + 540) %% 360 == delta target current + 180)
    by (unfold delta; ring).
  rewrite Ed in E1. clear Ed.
  set (d := delta target current) in *.
  set (c' := eased target current) in *.
  set (k := JS.Qtrunc ((target - current + 540) / 360)) in *.
  set (j := JS.Qtrunc ((current + d * 0.18 + 360) / 360)) in *.
  assert (Ek : inject_Z (k + j - 1) == inject_Z k + inject_Z j - 1).
  { replace (k + j - 1)%Z with (k + j + -1)%Z by lia.
    rewrite !inject_Z_plus. reflexivity. }
  unfold delta at 1.
  assert (G : (target - c' + 540) %% 360 == 0.82 * d + 180).
  { apply (rem_unique _ _ _ (k + j - 1)).
    - lra.
    - lra.
    - apply inject_Z_nonneg. rewrite Ek. lra.
    - rewrite Ek. lra. }
  rewrite G. ring.
Qed.

(** ** Ticks of the animation loop *)

Lemma runFrames_idle (n : nat) (st : State) :
  pending st = [] -> runFrames n st = st.
Proof.
  intros H. induction n as [ | n IH]; simpl; [reflexivity | ].
  unfold runFrame. now rewrite H.
Qed.

Lemma reach_33 : 180 < reach 33.
Proof. vm_compute. reflexivity. Qed.

Lemma runFrames_converge (k : nat) :
  forall (st : State) (id : positive) (target : Q),
    0 <= animRef st < 360 -> 0 <= target < 360 ->
    pending st = [Build_Frame id target] ->
    Qabs (delta target (animRef st)) < reach k ->
    exists n, (1 <= n <= S k)%nat /\
      animRef (runFrames n st) = target /\
      animatedDeg (runFrames n st) = target /\
      pending (runFrames n st) = [].
Proof.
  assert (Snap : forall st id target,
            pending st = [Build_Frame id target] ->
            Qabs (delta target (animRef st)) < 0.3 ->
            runFrame st = setAngle target (setPending [] st)).
  { intros st id target Hp Hd. unfold runFrame. rewrite Hp. simpl.
    now apply step_snap. }
  induction k as [ | k IH]; intros st id target Hc Ht Hp Hd.
  - exists 1%nat. simpl in *. rewrite (Snap st id target Hp Hd).
    repeat split; auto.
  - destruct (Qlt_le_dec (Qabs (delta target (animRef st))) 0.3) as [Hs | He].
    + exists 1%nat. simpl. rewrite (Snap st id target Hp Hs).
      repeat split; auto. lia.
    + assert (Hr : runFrame st =
                   mkState (direction st) (degrees st)
                           (eased target (animRef st)) (eased target (animRef st))
                           (Some (nextHandle st)) (Pos.succ (nextHandle st))
                           [Build_Frame (nextHandle st) target]).
      { unfold runFrame. rewrite Hp. simpl.
        rewrite step_ease by exact He. reflexivity. }
      destruct (IH (runFrame st) (nextHandle st) target) as (n & Hn & H1 & H2 & H3).
      * rewrite Hr. cbn [animRef]. now apply eased_range.
      * assumption.
      * rewrite Hr. reflexivity.
      * rewrite Hr. cbn [animRef]. rewrite delta_eased by assumption.
        rewrite Qabs_Qmult. cbn [reach] in Hd.
        change (Qabs 0.82) with 0.82.
        assert (E : reach k == 0.82 * (reach k / 0.82)) by (field; lra).
        rewrite E. apply Qmult_lt_l; [reflexivity | exact Hd].
      * exists (S n). simpl. repeat split; auto; lia.
Qed.

(** ** Properties of the tick *)

(** C2 as the code has it: for a current and a target angle in [0, 360)
    the delta [((target - current + 540) % 360) - 180] of [step] lies in
    the half-open range [-180, 180): the lower end is attained, the upper
    end is not.  For current 0 and target 180 the delta is -180. *)
Theorem delta_range :
  (forall current target : Q,
     0 <= current < 360 -> 0 <= target < 360 ->
     -180 <= delta target current < 180) /\
  delta 180 0 == -180.
Proof.
  split.
  - intros current target Hc Ht. now apply delta_bounds_in_range.
  - reflexivity.
Qed.

Lemma delta_range_witness : -180 <= delta 10 350 < 180.
Proof.
  apply (proj1 delta_range 350 10); split; vm_compute; congruence.
Defined.

(** C2 as the specification words it fails: at current 0 and target 180,
    both in [0, 360), the delta is not in (-180, 180]. *)
Lemma delta_range_open_below_fails :
  (0 <= 0 < 360) /\ (0 <= 180 < 360) /\ ~ (-180 < delta 180 0 <= 180).
Proof.
  split; [ | split].
  - split; vm_compute; congruence.
  - split; vm_compute; congruence.
  - intros [H _]. vm_compute in H. discriminate H.
Qed.

(** C3: from current 350 toward target 10 the delta of [step] is +20, not
    -340, and the tick moves the needle up to 353.6, toward the 0/360
    boundary, and asks for another frame. *)
Theorem delta_wraps_350_to_10 :
  delta 10 350 == 20 /\ JS.eqb (delta 10 350) (-340) = false /\
  forall st : State,
    animRef (step 10 (setAngle 350 st)) == 353.6 /\
    pending (step 10 (setAngle 350 st)) =
      pending st ++ [Build_Frame (nextHandle st) 10].
Proof.
  split; [reflexivity | split; [reflexivity | ] ].
  intros st. rewrite step_ease.
  - split; reflexivity.
  - vm_compute. discriminate.
Qed.

(** C6: from any current angle in [0, 360), with one [step] pending for a
    target in [0, 360), at most 34 frames bring [animRef] (and the
    displayed [animatedDeg]) to the target exactly, with no frame left
    pending; firing further frames then changes nothing. *)
Theorem animation_converges (st : State) (id : positive) (target : Q) :
  0 <= animRef st < 360 -> 0 <= target < 360 ->
  pending st = [Build_Frame id target] ->
  exists n, (1 <= n <= 34)%nat /\
    animRef (runFrames n st) = target /\
    animatedDeg (runFrames n st) = target /\
    pending (runFrames n st) = [] /\
    forall m, runFrames m (runFrames n st) = runFrames n st.
Proof.
  intros Hc Ht Hp.
  destruct (runFrames_converge 33 st id target Hc Ht Hp) as (n & Hn & H1 & H2 & H3).
  - pose proof (delta_bounds_in_range target (animRef st) Hc Ht) as D.
    pose proof reach_33 as R.
    apply Qabs_case; intros; lra.
  - exists n. repeat split; try assumption; try lia.
    intros m. now apply runFrames_idle.
Qed.

Lemma animation_converges_witness :
  exists n, (1 <= n <= 34)%nat /\
    animRef (runFrames n (mkState (Some "N"%string) 10 350 350 (Some 1%positive)
                                  2%positive [Build_Frame 1 10])) = 10 /\
    animatedDeg (runFrames n (mkState (Some "N"%string) 10 350 350 (Some 1%positive)
                                  2%positive [Build_Frame 1 10])) = 10 /\
    pending (runFrames n (mkState (Some "N"%string) 10 350 350 (Some 1%positive)
                                  2%positive [Build_Frame 1 10])) = [] /\
    forall m, runFrames m (runFrames n (mkState (Some "N"%string) 10 350 350
                                  (Some 1%positive) 2%positive [Build_Frame 1 10])) =
              runFrames n (mkState (Some "N"%string) 10 350 350 (Some 1%positive)
                                  2%positive [Build_Frame 1 10]).
Proof.
  apply (animation_converges _ 1%positive 10).
  - split; vm_compute; congruence.
  - split; vm_compute; congruence.
  - reflexivity.
Defined.

(** C9: when [animRef] already equals the target, the delta is 0, [step]
    takes the snap branch, the angle stays the target, and the frame queue
    and [rafRef] are left as they were: nothing is scheduled.  A second
    [step] changes nothing more, and a state whose two angle cells hold
    the target is a fixed point of [step]. *)
Theorem step_idle (target : Q) (st : State) :
  animRef st == target ->
  delta target (animRef st) == 0 /\
  animRef (step target st) = target /\
  animRef (step target st) == animRef st /\
  pending (step target st) = pending st /\
  rafRef (step target st) = rafRef st /\
  step target (step target st) = step target st /\
  (animRef st = target -> animatedDeg st = target -> step target st = st).
Proof.
  intros E.
  assert (Snap : forall s, animRef s == target -> step target s = setAngle target s).
  { intros s Es. apply step_snap. rewrite (delta_same target (animRef s) Es).
    reflexivity. }
  rewrite (Snap st E).
  split; [now apply delta_same | ].
  split; [reflexivity | ].
  split; [cbn [setAngle animRef]; now symmetry | ].
  split; [reflexivity | ].
  split; [reflexivity | ].
  split.
  - rewrite (Snap (setAngle target st)); reflexivity.
  - intros E1 E2. destruct st; cbn in *. subst. reflexivity.
Qed.

Lemma step_idle_witness :
  animRef (step 90 (mkState (Some "E"%string) 90 90 90 (Some 1%positive)
                            2%positive [])) = 90 /\
  pending (step 90 (mkState (Some "E"%string) 90 90 90 (Some 1%positive)
                            2%positive [])) = [].
Proof.
  pose proof (step_idle 90 (mkState (Some "E"%string) 90 90 90 (Some 1%positive)
                                    2%positive [])) as H.
  destruct H as (_ & H1 & _ & H2 & _).
  - reflexivity.
  - split; [exact H1 | exact H2].
Defined.

(** ** The direction table *)

Lemma round_range (x : Q) (n : Z) :
  0 <= x < inject_Z n -> (0 <= JS.round x <= n)%Z.
Proof.
  intros [Hlo Hhi]. unfold JS.round.
  pose proof (Qfloor_le (x + (1 # 2))) as L.
  pose proof (Qlt_floor (x + (1 # 2))) as U.
  rewrite inject_Z_plus in U. change (inject_Z 1) with 1 in U.
  assert (L1 : inject_Z (-1) < inject_Z (Qfloor (x + (1 # 2)))).
  { change (inject_Z (-1)) with (-1#1). lra. }
  assert (L2 : inject_Z (Qfloor (x + (1 # 2))) < inject_Z (n + 1)).
  { rewrite inject_Z_plus. change (inject_Z 1) with 1. lra. }
  rewrite <- Zlt_Qlt in L1, L2. lia.
Qed.

Lemma directionIndex_range (bearing : Q) :
  0 <= bearing < 360 -> (0 <= directionIndex bearing < 16)%Z.
Proof.
  intros [Hlo Hhi]. unfold directionIndex.
  assert (R : (0 <= JS.round (bearing / 22.5) <= 16)%Z).
  { apply round_range. split.
    - apply Qle_shift_div_l; [reflexivity | lra].
    - apply Qlt_shift_div_r; [reflexivity | ].
      change (inject_Z 16 * 22.5) with (16 * 22.5). lra. }
  apply Z.rem_bound_pos; lia.
Qed.

Lemma directions_lookup (i : Z) :
  (0 <= i < 16)%Z ->
  exists label, nth_error directions (Z.to_nat i) = Some label /\
                In label directions.
Proof.
  intros Hi.
  destruct (nth_error directions (Z.to_nat i)) as [label | ] eqn:E.
  - exists label. split; [reflexivity | ]. eapply nth_error_In; eassumption.
  - apply nth_error_None in E. simpl in E. lia.
Qed.

#[export] Instance directionIndex_comp : Proper (Qeq ==> eq) directionIndex.
Proof.
  intros b b' E. unfold directionIndex, JS.round.
  assert (E' : b / 22.5 + (1 # 2) == b' / 22.5 + (1 # 2)) by now rewrite E.
  now rewrite (Qfloor_comp _ _ E').
Qed.

Lemma round_Z (k : Z) : JS.round (inject_Z k) = k.
Proof.
  unfold JS.round.
  pose proof (Qfloor_le (inject_Z k + (1 # 2))) as L.
  pose proof (Qlt_floor (inject_Z k + (1 # 2))) as U.
  rewrite inject_Z_plus in U. change (inject_Z 1) with 1 in U.
  assert (L1 : inject_Z (Qfloor (inject_Z k + (1 # 2))) < inject_Z (k + 1)).
  { rewrite inject_Z_plus. change (inject_Z 1) with 1. lra. }
  assert (L2 : inject_Z (k - 1) < inject_Z (Qfloor (inject_Z k + (1 # 2)))).
  { replace (k - 1)%Z with (k + -1)%Z by lia. rewrite inject_Z_plus.
    change (inject_Z (-1)) with (-1#1). lra. }
  rewrite <- Zlt_Qlt in L1, L2. lia.
Qed.

(** The index of a multiple of 22.5, the centre of a sector. *)
Lemma directionIndex_centre (k : Z) :
  directionIndex (inject_Z k * 22.5) = Z.rem k 16.
Proof.
  assert (E : inject_Z k * 22.5 / 22.5 == inject_Z k) by (field; discriminate).
  unfold directionIndex, JS.round.
  rewrite (Qfloor_comp _ _ (Qplus_comp _ _ E _ _ (Qeq_refl (1 # 2)))).
  fold (JS.round (inject_Z k)). now rewrite round_Z.
Qed.

(** The index of an odd multiple of 11.25. *)
Lemma directionIndex_boundary (k : Z) :
  directionIndex (inject_Z (2 * k + 1) * 11.25) = Z.rem (k + 1) 16.
Proof.
  unfold directionIndex.
  assert (E : inject_Z (2 * k + 1) * 11.25 / 22.5 == inject_Z k + (1 # 2)).
  { rewrite inject_Z_plus, inject_Z_mult.
    change (inject_Z 2) with 2. change (inject_Z 1) with 1. field. }
  unfold JS.round. rewrite (Qfloor_comp _ _ (Qplus_comp _ _ E _ _ (Qeq_refl (1 # 2)))).
  fold (JS.round (inject_Z k + (1 # 2))). now rewrite round_half.
Qed.

(** C4: on [0, 360) the index [round(bearing / 22.5) % 16] is one of
    0..15, so [bearingToDirection] returns a label of the 16-entry table
    and never [undefined]; equal bearings get the same label; 0, 90, 180
    and 270 give N, E, S and W. *)
Theorem bearingToDirection_total :
  (forall bearing : Q, 0 <= bearing < 360 ->
     (0 <= directionIndex bearing < 16)%Z /\
     exists label, bearingToDirection bearing = Some label /\
                   In label directions) /\
  (forall b b' : Q, b == b' -> bearingToDirection b = bearingToDirection b') /\
  List.length directions = 16%nat /\
  bearingToDirection 0 = Some "N"%string /\
  bearingToDirection 90 = Some "E"%string /\
  bearingToDirection 180 = Some "S"%string /\
  bearingToDirection 270 = Some "W"%string.
Proof.
  split; [ | split; [ | repeat split; reflexivity] ].
  2: { intros b b' E. unfold bearingToDirection.
       now rewrite (directionIndex_comp b b' E). }
  intros bearing Hb.
  pose proof (directionIndex_range bearing Hb) as R.
  split; [exact R | ].
  unfold bearingToDirection.
  destruct (Z.ltb_spec (directionIndex bearing) 0) as [Hneg | _]; [lia | ].
  now apply directions_lookup.
Qed.

Lemma bearingToDirection_total_witness :
  (0 <= directionIndex 359.9 < 16)%Z /\
  exists label, bearingToDirection 359.9 = Some label /\ In label directions.
Proof.
  apply (proj1 bearingToDirection_total 359.9).
  split; vm_compute; congruence.
Defined.

(** C10: [Math.round] takes halves upward.  Sector [k] (0..15) is the one
    whose centre [k * 22.5] gets entry [k] of the table; the bearing on
    the boundary between sector [k] and the next one, the odd multiple
    [(2k + 1) * 11.25], gets entry [(k + 1) mod 16], the clockwise-next
    sector, index 16 wrapping to 0: 11.25 is NNE, 33.75 is NE and 348.75
    is N. *)
Theorem bearingToDirection_boundary :
  (forall k : Z, JS.round (inject_Z k + (1 # 2)) = (k + 1)%Z) /\
  (forall k : Z, (0 <= k < 16)%Z ->
     bearingToDirection (inject_Z k * 22.5) =
       nth_error directions (Z.to_nat k) /\
     bearingToDirection (inject_Z (2 * k + 1) * 11.25) =
       nth_error directions (Z.to_nat ((k + 1) mod 16))) /\
  bearingToDirection 11.25 = Some "NNE"%string /\
  bearingToDirection 33.75 = Some "NE"%string /\
  bearingToDirection 348.75 = Some "N"%string.
Proof.
  split; [exact round_half | ].
  split; [ | repeat split; reflexivity].
  intros k Hk. unfold bearingToDirection.
  rewrite directionIndex_centre, directionIndex_boundary.
  rewrite !Z.rem_mod_nonneg by lia.
  pose proof (Z.mod_pos_bound (k + 1) 16).
  rewrite (Z.mod_small k 16) by lia.
  destruct (Z.ltb_spec k 0) as [Hneg | _]; [lia | ].
  destruct (Z.ltb_spec ((k + 1) mod 16) 0) as [Hneg | _]; [lia | ].
  split; reflexivity.
Qed.

Lemma bearingToDirection_boundary_witness :
  bearingToDirection (inject_Z 15 * 22.5) = Some "NNW"%string /\
  bearingToDirection (inject_Z (2 * 15 + 1) * 11.25) = Some "N"%string.
Proof.
  apply (proj1 (proj2 bearingToDirection_boundary) 15%Z). lia.
Defined.

(** ** The bearing *)

Lemma normalizeBearing_range (b : Q) :
  -360 <= b -> 0 <= normalizeBearing b < 360.
Proof. intros H. unfold normalizeBearing. apply rem_range; lra. Qed.

Lemma normalizeBearing_spec (b : Q) :
  -180 <= b <= 180 -> normalizeBearing b == specNormalize b.
Proof.
  intros H. unfold normalizeBearing, specNormalize.
  rewrite (rem_small b 360) by lra. reflexivity.
Qed.

(** Degrees from an angle in [-PI, PI]. *)
Lemma degrees_of_radians (pi a : Q) :
  0 < pi -> - pi <= a <= pi -> -180 <= a * 180 / pi <= 180.
Proof.
  intros Hpi [Hlo Hhi]. split.
  - apply Qle_shift_div_l; [assumption | lra].
  - apply Qle_shift_div_r; [assumption | lra].
Qed.

Lemma calculateBearing_in_range (Math : MathHost)
                                (start end_ : option GeoPoint) :
  MathRange Math -> 0 <= calculateBearing Math start end_ < 360.
Proof.
  intros [Hpi Hat]. unfold calculateBearing.
  destruct start as [s | ]; [ | lra].
  destruct end_ as [e | ]; [ | lra].
  destruct (JS.eqb (lat s) (lat e) && JS.eqb (lng s) (lng e)); [lra | ].
  cbv zeta. apply normalizeBearing_range.
  match goal with
  | |- context [atan2 Math ?y ?x] =>
      pose proof (degrees_of_radians (PI Math) (atan2 Math y x) Hpi (Hat y x))
  end.
  lra.
Qed.

Lemma eqb_same (x y : Q) : x == y -> JS.eqb x y = true.
Proof. intros E. unfold JS.eqb. now apply Qeq_bool_iff. Qed.

(** ** The cells the animation loop leaves alone *)

Lemma step_keeps_bearing (target : Q) (st : State) :
  degrees (step target st) = degrees st /\
  direction (step target st) = direction st.
Proof. unfold step. destruct (JS.ltb _ _); split; reflexivity. Qed.

Lemma runFrame_keeps_bearing (st : State) :
  degrees (runFrame st) = degrees st /\
  direction (runFrame st) = direction st.
Proof.
  unfold runFrame. destruct (pending st) as [ | f rest]; [now split | ].
  apply (step_keeps_bearing (frameTarget f) (setPending rest st)).
Qed.

Lemma cancelPrevious_keeps (st : State) :
  degrees (cancelPrevious st) = degrees st /\
  direction (cancelPrevious st) = direction st /\
  animRef (cancelPrevious st) = animRef st /\
  animatedDeg (cancelPrevious st) = animatedDeg st.
Proof. unfold cancelPrevious. destruct (rafRef st); repeat split. Qed.

Lemma animationEffect_keeps (st : State) :
  degrees (animationEffect st) = degrees st /\
  direction (animationEffect st) = direction st /\
  animRef (animationEffect st) = animRef st /\
  animatedDeg (animationEffect st) = animatedDeg st.
Proof. unfold animationEffect. cbn. apply cancelPrevious_keeps. Qed.

Lemma animationCleanup_keeps (st : State) :
  degrees (animationCleanup st) = degrees st /\
  direction (animationCleanup st) = direction st /\
  animRef (animationCleanup st) = animRef st /\
  animatedDeg (animationCleanup st) = animatedDeg st.
Proof. unfold animationCleanup. cbn. apply cancelPrevious_keeps. Qed.

Lemma update_keeps_bearing (Math : MathHost) (bus prev : option GeoPoint)
                           (st : State) :
  degrees (update Math bus prev st) = degrees (locationEffect Math bus prev st) /\
  direction (update Math bus prev st) = direction (locationEffect Math bus prev st).
Proof.
  unfold update.
  destruct (JS.eqb _ _); [now split | ].
  destruct (animationEffect_keeps (animationCleanup (locationEffect Math bus prev st)))
    as (E1 & E2 & _).
  destruct (animationCleanup_keeps (locationEffect Math bus prev st)) as (F1 & F2 & _).
  rewrite E1, E2, F1, F2. now split.
Qed.

Lemma locationEffect_agrees (Math : MathHost) (bus prev : option GeoPoint)
                            (st : State) :
  direction st = bearingToDirection (degrees st) ->
  direction (locationEffect Math bus prev st) =
  bearingToDirection (degrees (locationEffect Math bus prev st)).
Proof.
  intros H. unfold locationEffect.
  destruct bus; [ | exact H]. destruct prev; [ | exact H]. reflexivity.
Qed.

(** ** The range invariant *)

Lemma step_range (target : Q) (st : State) :
  0 <= animRef st < 360 -> 0 <= target < 360 ->
  (Qabs (delta target (animRef st)) < 0.3 /\
   animRef (step target st) = target /\
   pending (step target st) = pending st
   \/
   0.3 <= Qabs (delta target (animRef st)) /\
   animRef (step target st) = eased target (animRef st) /\
   pending (step target st) =
     pending st ++ [Build_Frame (nextHandle st) target]) /\
  animatedDeg (step target st) = animRef (step target st) /\
  0 <= animRef (step target st) < 360.
Proof.
  intros Hc Ht.
  destruct (Qlt_le_dec (Qabs (delta target (animRef st))) 0.3) as [Hs | He].
  - rewrite (step_snap _ _ Hs). cbn [setAngle animRef animatedDeg pending].
    split; [left | ]; auto.
  - rewrite (step_ease _ _ He). cbn [animRef animatedDeg pending].
    fold (eased target (animRef st)).
    split; [right | ]; auto. split; [reflexivity | ].
    now apply eased_range.
Qed.

Lemma Inv_mount : Inv (animationEffect initialState).
Proof.
  unfold Inv. cbn.
  repeat split; try (vm_compute; congruence).
  repeat constructor; vm_compute; congruence.
Qed.

Lemma Inv_runFrame (st : State) : Inv st -> Inv (runFrame st).
Proof.
  intros (Hd & Ha & Hv & Hp). unfold runFrame.
  destruct (pending st) as [ | f rest] eqn:E.
  - unfold Inv. rewrite E. auto.
  - inversion Hp as [ | f' rest' Hf Hrest]; subst.
    destruct (step_range (frameTarget f) (setPending rest st) Ha Hf)
      as (Hbranch & Hanim & Hr).
    destruct (step_keeps_bearing (frameTarget f) (setPending rest st)) as (Kd & _).
    unfold Inv. rewrite Kd, Hanim. cbn [setPending degrees].
    repeat split; try tauto.
    destruct Hbranch as [(_ & _ & P) | (_ & _ & P)]; rewrite P; cbn [setPending pending].
    + exact Hrest.
    + apply Forall_app. split; [exact Hrest | ]. repeat constructor; tauto.
Qed.

Lemma Inv_cancelPrevious (st : State) : Inv st -> Inv (cancelPrevious st).
Proof.
  intros (Hd & Ha & Hv & Hp). unfold cancelPrevious.
  destruct (rafRef st) as [id | ]; [ | unfold Inv; tauto].
  unfold Inv, cancelAnimationFrame. cbn.
  repeat split; try tauto.
  apply Forall_forall. intros f Hf. apply filter_In in Hf.
  rewrite Forall_forall in Hp. now apply Hp.
Qed.

Lemma Inv_animationEffect (st : State) : Inv st -> Inv (animationEffect st).
Proof.
  intros H. apply Inv_cancelPrevious in H. destruct H as (Hd & Ha & Hv & Hp).
  unfold Inv, animationEffect. cbn.
  repeat split; try tauto.
  apply Forall_app. split; [exact Hp | ]. repeat constructor; tauto.
Qed.

Lemma Inv_animationCleanup (st : State) : Inv st -> Inv (animationCleanup st).
Proof.
  intros H. apply Inv_cancelPrevious in H. destruct H as (Hd & Ha & Hv & Hp).
  unfold Inv, animationCleanup. cbn. repeat split; tauto.
Qed.

Lemma Inv_setBearing (bearing : Q) (st : State) :
  0 <= bearing < 360 -> Inv st -> Inv (setBearing bearing st).
Proof.
  intros Hb (Hd & Ha & Hv & Hp). unfold setBearing.
  set (st1 := mkState (bearingToDirection bearing) bearing (animatedDeg st)
                      (animRef st) (rafRef st) (nextHandle st) (pending st)).
  assert (H1 : Inv st1) by (unfold Inv, st1; cbn; tauto).
  destruct (JS.eqb _ _); [exact H1 | ].
  now apply Inv_animationEffect, Inv_animationCleanup.
Qed.

Lemma tracking_Inv (st : State) : tracking st -> Inv st.
Proof.
  intros R. induction R as [ | bearing st R IH Hb | st R IH].
  - apply Inv_mount.
  - now apply Inv_setBearing.
  - now apply Inv_runFrame.
Qed.

(** A position update with both locations present is [setBearing] of the
    computed bearing. *)
Lemma update_setBearing (Math : MathHost) (bus prev : GeoPoint) (st : State) :
  update Math (Some bus) (Some prev) st =
  setBearing (calculateBearing Math (Some prev) (Some bus)) st.
Proof. reflexivity. Qed.

(** ** Properties of the bearing and of the component *)

(** *** Staying in the finite range *)

Lemma Qabs_bound (x c : Q) : - c <= x <= c -> Qabs x <= c.
Proof. intros H. now apply Qabs_Qle_condition. Qed.

Lemma lift2_finite (B : Q) (f : Q -> Q -> Q) (x y : Q) :
  (forall q, Qabs q <= B -> Checked.finite q = Some q) ->
  - B <= f x y <= B ->
  Checked.lift2 f (Some x) (Some y) = Some (f x y).
Proof. intros HB H. cbn. apply HB. now apply Qabs_bound. Qed.

Lemma call1_finite (B : Q) (f : Q -> Q) (x : Q) :
  (forall q, Qabs q <= B -> Checked.finite q = Some q) ->
  - B <= f x <= B ->
  Checked.call1 f (Some x) = Some (f x).
Proof. intros HB H. cbn. apply HB. now apply Qabs_bound. Qed.

Lemma over_180 (x c : Q) : 0 <= c -> - c <= x <= c -> - c <= x / 180 <= c.
Proof.
  intros Hc H.
  assert (E : x / 180 == (1 # 180) * x) by field.
  rewrite E. lra.
Qed.

(** With coordinates up to [B] in size, [8 * B] within the finite range
    and a bounded engine, no operation of [calculateBearing] leaves the
    finite range, and the result is the exact one. *)
Lemma checked_calculateBearing (Math : MathHost) (B : Q) (s e : GeoPoint) :
  (forall q, Qabs q <= 8 * B -> Checked.finite q = Some q) ->
  90 <= B -> MathBounded Math ->
  Qabs (lat s) <= B -> Qabs (lng s) <= B ->
  Qabs (lat e) <= B -> Qabs (lng e) <= B ->
  Checked.calculateBearing Math (Some s) (Some e)
  = Some (calculateBearing Math (Some s) (Some e)).
Proof.
  intros HB H90 ((P3 & P4) & HS & HA) Hls Hgs Hle Hge.
  apply Qabs_Qle_condition in Hls, Hgs, Hle, Hge.
  unfold Checked.calculateBearing, calculateBearing.
  destruct (JS.eqb (lat s) (lat e) && JS.eqb (lng s) (lng e)); [reflexivity | ].
  cbv zeta.
  unfold Checked.add, Checked.sub, Checked.mul, Checked.div, Checked.rem,
    Checked.call2.
  set (p := PI Math) in *.
  assert (Scale : forall c : Q, - (2 * B) <= c <= 2 * B ->
            Checked.lift2 Qdiv (Checked.lift2 Qmult (Some c) (Some p)) (Some 180)
            = Some (c * p / 180)).
  { intros c Hc.
    assert (M : - (8 * B) <= c * p <= 8 * B) by (split; nra).
    rewrite (lift2_finite (8 * B) Qmult c p HB M).
    apply (lift2_finite (8 * B) Qdiv (c * p) 180 HB).
    apply over_180; lra. }
  rewrite (Scale (lat s)) by lra.
  rewrite (Scale (lat e)) by lra.
  rewrite (lift2_finite (8 * B) Qminus (lng e) (lng s) HB) by lra.
  rewrite (Scale (lng e - lng s)) by lra.
  set (lat1 := lat s * p / 180).
  set (lat2 := lat e * p / 180).
  set (dLng := (lng e - lng s) * p / 180).
  destruct (HS lat1) as (S1 & C1). destruct (HS lat2) as (S2 & C2).
  destruct (HS dLng) as (Sd & Cd).
  rewrite !(call1_finite (8 * B) (sin Math)) by (try exact HB; lra).
  rewrite !(call1_finite (8 * B) (cos Math)) by (try exact HB; lra).
  set (s1 := sin Math lat1) in *. set (c1 := cos Math lat1) in *.
  set (s2 := sin Math lat2) in *. set (c2 := cos Math lat2) in *.
  set (sd := sin Math dLng) in *. set (cd := cos Math dLng) in *.
  assert (Prod : forall a b : Q, -1 <= a <= 1 -> -1 <= b <= 1 ->
            -1 <= a * b <= 1) by (intros a b Ha Hb; split; nra).
  pose proof (Prod sd c2 Sd C2) as Y.
  pose proof (Prod c1 s2 C1 S2) as X1.
  pose proof (Prod s1 c2 S1 C2) as X2.
  pose proof (Prod (s1 * c2) cd X2 Cd) as X3.
  rewrite (lift2_finite (8 * B) Qmult sd c2 HB) by lra.
  rewrite (lift2_finite (8 * B) Qmult c1 s2 HB) by lra.
  rewrite (lift2_finite (8 * B) Qmult s1 c2 HB) by lra.
  rewrite (lift2_finite (8 * B) Qmult (s1 * c2) cd HB) by lra.
  rewrite (lift2_finite (8 * B) Qminus (c1 * s2) (s1 * c2 * cd) HB) by lra.
  set (y := sd * c2). set (x := c1 * s2 - s1 * c2 * cd).
  pose proof (HA y x) as A. fold p in A.
  rewrite (lift2_finite (8 * B) (atan2 Math) y x HB) by lra.
  set (a := atan2 Math y x) in *.
  rewrite (lift2_finite (8 * B) Qmult a 180 HB) by lra.
  assert (Pp : 0 < p) by lra.
  pose proof (degrees_of_radians p a Pp A) as D.
  rewrite (lift2_finite (8 * B) Qdiv (a * 180) p HB) by lra.
  rewrite (lift2_finite (8 * B) Qplus (a * 180 / p) 360 HB) by lra.
  pose proof (rem_range (a * 180 / p + 360) 360) as R.
  rewrite (lift2_finite (8 * B) JS.rem (a * 180 / p + 360) 360 HB) by lra.
  reflexivity.
Qed.

Lemma finite_in_range (q : Q) :
  Qabs q <= 8 * coordinateBound -> Checked.finite q = Some q.
Proof.
  intros H. unfold Checked.finite.
  assert (L : Qabs q < Checked.overflowBound).
  { apply (Qle_lt_trans _ _ _ H). reflexivity. }
  apply ltb_true in L. now rewrite L.
Qed.

Lemma MathBounded_range (Math : MathHost) : MathBounded Math -> MathRange Math.
Proof. intros ((P3 & _) & _ & HA). split; [lra | exact HA]. Qed.

(** C1 as the code has it: with an engine as every engine is and
    coordinates of magnitude up to [10^300], [calculateBearing] returns a
    finite number in [0, 360), so 360 is never returned, for null
    arguments too; and on a bearing in [-180, 180] the code's
    [(bearing + 360) % 360] lands in [0, 360) and agrees with the
    specification's [((bearing % 360) + 360) % 360]. *)
Theorem calculateBearing_range (Math : MathHost)
                               (start end_ : option GeoPoint) :
  MathBounded Math -> boundedPoint start -> boundedPoint end_ ->
  (exists b : Q,
     Checked.calculateBearing Math start end_ = Some b /\ 0 <= b < 360) /\
  forall b : Q, -180 <= b <= 180 ->
    (0 <= normalizeBearing b < 360) /\ normalizeBearing b == specNormalize b.
Proof.
  intros HM Hs He. split.
  - exists (calculateBearing Math start end_).
    split.
    + destruct start as [s | ]; [ | reflexivity].
      destruct end_ as [e | ]; [ | reflexivity].
      destruct Hs as (Hls & Hgs). destruct He as (Hle & Hge).
      apply (checked_calculateBearing Math coordinateBound);
        try assumption.
      * exact finite_in_range.
      * vm_compute. discriminate.
    + apply calculateBearing_in_range. now apply MathBounded_range.
  - intros b Hb. split.
    + apply normalizeBearing_range; lra.
    + now apply normalizeBearing_spec.
Qed.

(** Whatever the engine, with [Math.PI] at least 2 the bearing from
    [farPoint] is NaN. *)
Lemma calculateBearing_far (Math : MathHost) :
  2 <= PI Math ->
  Checked.calculateBearing Math (Some farPoint) (Some origin) = None.
Proof.
  intros HP. unfold Checked.calculateBearing.
  change (JS.eqb (lat farPoint) (lat origin)) with false. cbn [andb].
  cbv zeta.
  assert (L : Checked.mul (Some (lat farPoint)) (Some (PI Math)) = None).
  { unfold Checked.mul, Checked.lift2, Checked.finite.
    assert (F : Checked.overflowBound <= Qabs (lat farPoint * PI Math)).
    { assert (B : Checked.overflowBound <= 2 * lat farPoint)
        by (vm_compute; discriminate).
      assert (P : 0 <= lat farPoint) by (vm_compute; discriminate).
      generalize dependent (lat farPoint).
      generalize dependent Checked.overflowBound.
      intros T l B P. apply Qabs_case; intros; nra. }
    apply ltb_false in F. now rewrite F. }
  rewrite L. cbn.
  match goal with
  | |- context [Checked.call2 _ ?y None] => destruct y; reflexivity
  end.
Qed.

(** C1 as the specification words it fails: both coordinates of
    [farPoint] are finite, [10^308] and 0, yet the latitude scaled by
    [Math.PI] leaves the finite range, its cosine is NaN and so is the
    bearing: no value in [0, 360) is returned. *)
Lemma calculateBearing_overflows :
  Checked.calculateBearing unitMath (Some farPoint) (Some origin) = None /\
  ~ (exists b : Q,
       Checked.calculateBearing unitMath (Some farPoint) (Some origin) = Some b /\
       0 <= b < 360).
Proof.
  assert (E : Checked.calculateBearing unitMath (Some farPoint) (Some origin) = None)
    by (vm_compute; reflexivity).
  split; [exact E | ].
  intros (b & H & _). rewrite E in H. discriminate H.
Qed.

(** C5: [calculateBearing] returns the constant 0 when both arguments are
    the same point, more generally when their coordinates are equal
    numbers, and when either argument is null; it is a total function,
    no property of a null argument is read. *)
Theorem calculateBearing_degenerate (Math : MathHost) :
  (forall p : GeoPoint, calculateBearing Math (Some p) (Some p) = 0) /\
  (forall s e : GeoPoint, lat s == lat e -> lng s == lng e ->
     calculateBearing Math (Some s) (Some e) = 0) /\
  (forall e : option GeoPoint, calculateBearing Math None e = 0) /\
  (forall s : option GeoPoint, calculateBearing Math s None = 0).
Proof.
  assert (G : forall s e : GeoPoint, lat s == lat e -> lng s == lng e ->
            calculateBearing Math (Some s) (Some e) = 0).
  { intros s e Hlat Hlng. unfold calculateBearing.
    now rewrite (eqb_same _ _ Hlat), (eqb_same _ _ Hlng). }
  repeat split.
  - intros p. apply G; reflexivity.
  - exact G.
  - intros [s | ]; reflexivity.
Qed.

(** C7: a position update with both locations present stores the result
    of one [calculateBearing] call in [degrees] and its
    [bearingToDirection] in [direction]; the initial cells (0 and N) agree
    too, and nothing else writes either cell, so in every reachable state
    the label is [bearingToDirection] of the stored bearing. *)
Theorem direction_agrees_with_degrees (Math : MathHost) :
  (forall (bus prev : GeoPoint) (st : State),
     degrees (locationEffect Math (Some bus) (Some prev) st) =
       calculateBearing Math (Some prev) (Some bus) /\
     direction (locationEffect Math (Some bus) (Some prev) st) =
       bearingToDirection (degrees (locationEffect Math (Some bus) (Some prev) st)) /\
     direction (update Math (Some bus) (Some prev) st) =
       bearingToDirection (degrees (update Math (Some bus) (Some prev) st))) /\
  (forall st : State, reachable Math st ->
     direction st = bearingToDirection (degrees st)).
Proof.
  split.
  - intros bus prev st.
    destruct (update_keeps_bearing Math (Some bus) (Some prev) st) as (E1 & E2).
    rewrite E1, E2. repeat split; reflexivity.
  - intros st R. induction R as [ | bus prev st R IH | st R IH].
    + reflexivity.
    + destruct (update_keeps_bearing Math bus prev st) as (E1 & E2).
      rewrite E1, E2. now apply locationEffect_agrees.
    + destruct (runFrame_keeps_bearing st) as (E1 & E2).
      now rewrite E1, E2.
Qed.

(** C8: a tick started with [animRef] and the target in [0, 360) leaves
    [animRef] in [0, 360): the snap branch stores the target, the ease
    branch stores [(current + delta * 0.18 + 360) % 360]; [animRef]
    starts at 0, so in every state of a run in which each bearing stored
    as target is in [0, 360), [animRef], [animatedDeg] and [degrees] are
    in [0, 360). *)
Theorem animRef_stays_in_range :
  (forall (target : Q) (st : State),
     0 <= animRef st < 360 -> 0 <= target < 360 ->
     (animRef (step target st) = target \/
      animRef (step target st) =
        (animRef st + delta target (animRef st) * 0.18 + 360) %% 360) /\
     (0 <= animRef (step target st) < 360)) /\
  animRef initialState = 0 /\
  (forall st : State, tracking st ->
     (0 <= animRef st < 360) /\ (0 <= animatedDeg st < 360) /\
     (0 <= degrees st < 360)).
Proof.
  split; [ | split].
  - intros target st Hc Ht.
    destruct (step_range target st Hc Ht) as (Hbranch & _ & Hr).
    split; [ | exact Hr].
    destruct Hbranch as [(_ & E & _) | (_ & E & _)]; [left | right]; exact E.
  - reflexivity.
  - intros st R. destruct (tracking_Inv st R) as (Hd & Ha & Hv & _).
    tauto.
Qed.

(** ** The theorems at concrete inputs *)


(** Due east is 90 degrees, labelled E; the pending frame for the old
    target is cancelled and one for the new target is queued. *)
Example update_due_east :
  let st := update coarseMath (Some eastOfOrigin) (Some origin)
                   (animationEffect initialState) in
  degrees st == 90 /\ direction st = Some "E"%string /\
  map frameId (pending st) = [2%positive] /\ rafRef st = Some 2%positive.
Proof. repeat split; reflexivity. Qed.

Lemma unitMath_SineBounded : SineBounded unitMath.
Proof.
  intros a. unfold unitMath, sin, cos.
  assert (Sq : forall x : Q, 0 <= x * x) by (intros x; nra).
  pose proof (Sq a) as A0.
  pose proof (Sq (a + 2)) as A1.
  pose proof (Sq (a - 2)) as A2.
  assert (E : a * a / 4 == (1 # 4) * (a * a)) by field.
  assert (D : 0 < 1 + a * a / 4) by (rewrite E; lra).
  repeat split.
  - apply Qle_shift_div_l; [exact D | rewrite E; lra].
  - apply Qle_shift_div_r; [exact D | rewrite E; lra].
  - apply Qle_shift_div_l; [exact D | rewrite E; lra].
  - apply Qle_shift_div_r; [exact D | rewrite E; lra].
Qed.

Lemma unitMath_MathBounded : MathBounded unitMath.
Proof.
  split; [split; discriminate | ].
  split; [exact unitMath_SineBounded | ].
  intros y x. unfold unitMath, atan2, PI.
  destruct (JS.ltb 0 y); [split; discriminate | ].
  destruct (JS.ltb y 0); [split; discriminate | ].
  destruct (JS.ltb x 0); split; discriminate.
Qed.

Lemma calculateBearing_range_witness :
  exists b : Q,
    Checked.calculateBearing unitMath (Some origin) (Some eastOfOrigin) = Some b /\
    0 <= b < 360.
Proof.
  apply (calculateBearing_range unitMath (Some origin) (Some eastOfOrigin)
           unitMath_MathBounded).
  - split; vm_compute; discriminate.
  - split; vm_compute; discriminate.
Defined.

Lemma calculateBearing_degenerate_witness :
  calculateBearing coarseMath (Some {| lat := 1 # 2; lng := 3 |})
                              (Some {| lat := 2 # 4; lng := 6 # 2 |}) = 0.
Proof.
  apply (proj1 (proj2 (calculateBearing_degenerate coarseMath))); reflexivity.
Defined.

Lemma direction_agrees_with_degrees_witness :
  direction (update coarseMath (Some eastOfOrigin) (Some origin)
                    (animationEffect initialState)) =
  bearingToDirection
    (degrees (update coarseMath (Some eastOfOrigin) (Some origin)
                     (animationEffect initialState))).
Proof.
  apply (proj2 (direction_agrees_with_degrees coarseMath)).
  apply reach_update, reach_mount.
Defined.

Lemma animRef_stays_in_range_witness :
  0 <= animRef (runFrame (setBearing 90 (animationEffect initialState))) < 360.
Proof.
  apply (proj2 (proj2 animRef_stays_in_range)
               (runFrame (setBearing 90 (animationEffect initialState)))).
  apply track_frame, track_bearing; [apply track_mount | ].
  split; vm_compute; congruence.
Defined.

(** ** Further properties: the direction table off the range [0, 360) *)

Lemma round_unique (x : Q) (k : Z) :
  inject_Z k - (1 # 2) <= x < inject_Z k + (1 # 2) -> JS.round x = k.
Proof.
  intros [Hlo Hhi]. unfold JS.round.
  pose proof (Qfloor_le (x + (1 # 2))) as L.
  pose proof (Qlt_floor (x + (1 # 2))) as U.
  rewrite inject_Z_plus in U. change (inject_Z 1) with 1 in U.
  assert (L1 : inject_Z (Qfloor (x + (1 # 2))) < inject_Z (k + 1)).
  { rewrite inject_Z_plus. change (inject_Z 1) with 1. lra. }
  assert (L2 : inject_Z (k - 1) < inject_Z (Qfloor (x + (1 # 2)))).
  { replace (k - 1)%Z with (k + -1)%Z by lia. rewrite inject_Z_plus.
    change (inject_Z (-1)) with (-1#1). lra. }
  rewrite <- Zlt_Qlt in L1, L2. lia.
Qed.

Lemma directionIndex_sector (k : Z) (bearing : Q) :
  inject_Z k * 22.5 - 11.25 <= bearing < inject_Z k * 22.5 + 11.25 ->
  directionIndex bearing = Z.rem k 16.
Proof.
  intros [Hlo Hhi]. unfold directionIndex.
  rewrite (round_unique (bearing / 22.5) k); [reflexivity | ].
  split.
  - apply Qle_shift_div_l; [reflexivity | lra].
  - apply Qlt_shift_div_r; [reflexivity | lra].
Qed.

(** X1: a bearing within 11.25 degrees of [k * 22.5], for a whole [k]
    from 0 to 32 (two turns of the dial), gets entry [k mod 16] of the
    table: each label covers the 22.5 degree sector around its centre,
    closed at its lower end, and bearings from 360 up to 731.25 wrap
    around. *)
Theorem bearingToDirection_sector (k : Z) (bearing : Q) :
  (0 <= k <= 32)%Z ->
  inject_Z k * 22.5 - 11.25 <= bearing < inject_Z k * 22.5 + 11.25 ->
  bearingToDirection bearing = nth_error directions (Z.to_nat (k mod 16)) /\
  exists label, bearingToDirection bearing = Some label.
Proof.
  intros Hk Hb.
  assert (E : bearingToDirection bearing =
              nth_error directions (Z.to_nat (k mod 16))).
  { unfold bearingToDirection. rewrite (directionIndex_sector k bearing Hb).
    rewrite Z.rem_mod_nonneg by lia.
    pose proof (Z.mod_pos_bound k 16).
    destruct (Z.ltb_spec (k mod 16) 0) as [Hneg | _]; [lia | reflexivity]. }
  split; [exact E | ].
  rewrite E.
  destruct (directions_lookup (k mod 16)) as (label & Hl & _).
  - apply Z.mod_pos_bound. lia.
  - now exists label.
Qed.

Lemma bearingToDirection_sector_witness :
  bearingToDirection 370 = Some "N"%string /\
  exists label, bearingToDirection 370 = Some label.
Proof.
  apply (bearingToDirection_sector 16 370); [lia | ].
  split; vm_compute; congruence.
Defined.

(** X2: a negative bearing from -348.75 up to, not including, -11.25 makes
    the index negative, and the table read gives [undefined]; from -11.25
    up to 0 the label is still N. *)
Theorem bearingToDirection_negative (bearing : Q) :
  (-348.75 <= bearing < -11.25 -> bearingToDirection bearing = None) /\
  (-11.25 <= bearing < 0 -> bearingToDirection bearing = Some "N"%string).
Proof.
  split; intros [Hlo Hhi].
  - set (k := JS.round (bearing / 22.5)).
    assert (Hk : (-15 <= k <= -1)%Z).
    { unfold k, JS.round.
      pose proof (Qfloor_le (bearing / 22.5 + (1 # 2))) as L.
      pose proof (Qlt_floor (bearing / 22.5 + (1 # 2))) as U.
      rewrite inject_Z_plus in U. change (inject_Z 1) with 1 in U.
      assert (B1 : -15.5 <= bearing / 22.5)
        by (apply Qle_shift_div_l; [reflexivity | lra]).
      assert (B2 : bearing / 22.5 < -0.5)
        by (apply Qlt_shift_div_r; [reflexivity | lra]).
      assert (L1 : inject_Z (Qfloor (bearing / 22.5 + (1 # 2))) < inject_Z 0)
        by (change (inject_Z 0) with 0; lra).
      assert (L2 : inject_Z (-16) < inject_Z (Qfloor (bearing / 22.5 + (1 # 2))))
        by (change (inject_Z (-16)) with (-16#1); lra).
      rewrite <- Zlt_Qlt in L1, L2. lia. }
    unfold bearingToDirection, directionIndex. fold k.
    assert (R : Z.rem k 16 = k).
    { rewrite <- (Z.opp_involutive k) at 1. rewrite Z.rem_opp_l by lia.
      rewrite Z.rem_small by lia. lia. }
    rewrite R.
    destruct (Z.ltb_spec k 0) as [_ | Hpos]; [reflexivity | lia].
  - unfold bearingToDirection.
    rewrite (directionIndex_sector 0 bearing); [reflexivity | ].
    change (inject_Z 0) with 0. lra.
Qed.

Lemma bearingToDirection_negative_witness :
  bearingToDirection (-90) = None /\ bearingToDirection (-5) = Some "N"%string.
Proof.
  split.
  - apply (proj1 (bearingToDirection_negative (-90))).
    split; vm_compute; congruence.
  - apply (proj2 (bearingToDirection_negative (-5))).
    split; vm_compute; congruence.
Defined.

(** ** Further properties: one eased frame *)

(** The signed short-way rotation from the old angle to the eased one is
    the 18% of the delta that was added. *)
Lemma delta_turn (target current : Q) :
  0 <= current < 360 -> 0 <= target < 360 ->
  delta (eased target current) current == 0.18 * delta target current.
Proof.
  intros Hc Ht.
  pose proof (delta_bounds_in_range target current Hc Ht) as D.
  pose proof (eased_range target current Hc Ht) as R.
  pose proof (rem_decomp (current + delta target current * 0.18 + 360) 360) as E.
  fold (eased target current) in E.
  set (d := delta target current) in *.
  set (c' := eased target current) in *.
  set (j := JS.Qtrunc ((current + d * 0.18 + 360) / 360)) in *.
  assert (Ej : inject_Z (2 - j) == 2 - inject_Z j).
  { replace (2 - j)%Z with (2 + - j)%Z by lia.
    rewrite inject_Z_plus, inject_Z_opp. reflexivity. }
  unfold delta at 1.
  assert (G : (c' - current + 540) %% 360 == 0.18 * d + 180).
  { apply (rem_unique _ _ _ (2 - j)).
    - lra.
    - lra.
    - apply inject_Z_nonneg. rewrite Ej. lra.
    - rewrite Ej. lra. }
  rewrite G. ring.
Qed.

(** X3: a frame never overshoots and never reverses.  For angles in
    [0, 360) whose delta is at most 179 in size (a degree away from the
    half turn, where the direction of the delta flips): the delta left
    after the frame has the sign of the delta before it, or is 0, and is
    smaller in size unless the delta was 0 already; the short-way turn of
    the needle in the frame is in the direction of the delta, no larger
    than the delta and at most 33 degrees. *)
Theorem step_never_overshoots (target : Q) (st : State) :
  0 <= animRef st < 360 -> 0 <= target < 360 ->
  Qabs (delta target (animRef st)) <= 179 ->
  0 <= delta target (animRef (step target st)) * delta target (animRef st) /\
  Qabs (delta target (animRef (step target st)))
    <= Qabs (delta target (animRef st)) /\
  (~ delta target (animRef st) == 0 ->
   Qabs (delta target (animRef (step target st)))
     < Qabs (delta target (animRef st))) /\
  0 <= delta (animRef (step target st)) (animRef st) * delta target (animRef st) /\
  Qabs (delta (animRef (step target st)) (animRef st))
    <= Qabs (delta target (animRef st)) /\
  Qabs (delta (animRef (step target st)) (animRef st)) <= 33.
Proof.
  intros Hc Ht Hd.
  assert (Sq : forall x : Q, 0 <= x * x) by (intros x; nra).
  set (d := delta target (animRef st)) in *.
  pose proof (Sq d) as Sd.
  assert (Pos : ~ d == 0 -> 0 < Qabs d).
  { intros Hn. apply Qabs_case; intros; [ | lra].
    destruct (Qeq_dec d 0); [contradiction | lra]. }
  destruct (Qlt_le_dec (Qabs d) 0.3) as [Hs | He].
  - rewrite (step_snap target st Hs). cbn [setAngle animRef]. fold d.
    rewrite (delta_same target target (Qeq_refl target)).
    change (Qabs 0) with 0.
    split; [lra | ]. split; [apply Qabs_nonneg | ].
    split; [exact Pos | ]. split; [exact Sd | ].
    split; [apply Qle_refl | lra].
  - rewrite (step_ease target st He). cbn [animRef].
    fold (eased target (animRef st)).
    rewrite (delta_turn target (animRef st) Hc Ht).
    rewrite (delta_eased target (animRef st) Hc Ht). fold d.
    rewrite !Qabs_Qmult.
    change (Qabs 0.18) with 0.18. change (Qabs 0.82) with 0.82.
    pose proof (Qabs_nonneg d) as A.
    split; [lra | ]. split; [lra | ]. split; [intros Hn; lra | ].
    split; [lra | ]. split; lra.
Qed.

Lemma step_never_overshoots_witness :
  0 <= delta 10 (animRef (step 10 (setAngle 350 initialState))) * delta 10 350 /\
  Qabs (delta (animRef (step 10 (setAngle 350 initialState))) 350) <= 33.
Proof.
  destruct (step_never_overshoots 10 (setAngle 350 initialState))
    as (H1 & _ & _ & _ & _ & H2).
  - split; vm_compute; congruence.
  - split; vm_compute; congruence.
  - vm_compute. congruence.
  - split; [exact H1 | exact H2].
Defined.

(** ** Further properties: the frame queue *)

Lemma cancelPrevious_clears (st : State) :
  pending st = [] \/
  (exists id t, pending st = [Build_Frame id t] /\ rafRef st = Some id) ->
  pending (cancelPrevious st) = [].
Proof.
  intros [Hp | (id & t & Hp & Hr)].
  - unfold cancelPrevious. destruct (rafRef st); [ | exact Hp].
    unfold cancelAnimationFrame. cbn. now rewrite Hp.
  - unfold cancelPrevious. rewrite Hr.
    unfold cancelAnimationFrame. cbn. rewrite Hp. cbn.
    now rewrite Pos.eqb_refl.
Qed.

Lemma OneFrame_queue (st : State) :
  OneFrame st ->
  pending st = [] \/
  (exists id t, pending st = [Build_Frame id t] /\ rafRef st = Some id).
Proof.
  intros (_ & [(Hp & _) | (id & t & Hp & Hr & _)]); [now left | right].
  now exists id, t.
Qed.

Lemma OneFrame_mount : OneFrame (animationEffect initialState).
Proof.
  split; [reflexivity | right].
  exists 1%positive, 0. repeat split; reflexivity.
Qed.

Lemma OneFrame_runFrame (st : State) : OneFrame st -> OneFrame (runFrame st).
Proof.
  intros H. pose proof H as (Ha & [(Hp & He) | (id & t & Hp & Hr & Ht)]).
  - unfold runFrame. now rewrite Hp.
  - unfold runFrame. rewrite Hp.
    destruct (step_keeps_bearing (frameTarget (Build_Frame id t)) (setPending [] st))
      as (Kd & _).
    cbn [frameTarget] in *. cbn [setPending degrees] in Kd.
    destruct (Qlt_le_dec (Qabs (delta t (animRef (setPending [] st)))) 0.3)
      as [Hs | Hl].
    + rewrite (step_snap _ _ Hs). split; [reflexivity | left].
      split; [reflexivity | exact Ht].
    + rewrite (step_ease _ _ Hl). split; [reflexivity | right].
      exists (nextHandle st), t. repeat split. exact Ht.
Qed.

Lemma OneFrame_restart (st : State) :
  animatedDeg st = animRef st ->
  pending st = [] \/
  (exists id t, pending st = [Build_Frame id t] /\ rafRef st = Some id) ->
  OneFrame (animationEffect (animationCleanup st)).
Proof.
  intros Ha Hq. pose proof (cancelPrevious_clears st Hq) as Hc.
  destruct (cancelPrevious_keeps st) as (Kd & _ & Kr & Kv).
  unfold animationEffect, animationCleanup. cbn.
  rewrite Hc, Kr, Kv. split; [exact Ha | right].
  exists (nextHandle (cancelPrevious st)), (degrees (cancelPrevious st)).
  repeat split.
Qed.

Lemma locationEffect_keeps_animation (Math : MathHost)
                                     (bus prev : option GeoPoint) (st : State) :
  animRef (locationEffect Math bus prev st) = animRef st /\
  animatedDeg (locationEffect Math bus prev st) = animatedDeg st /\
  rafRef (locationEffect Math bus prev st) = rafRef st /\
  nextHandle (locationEffect Math bus prev st) = nextHandle st /\
  pending (locationEffect Math bus prev st) = pending st.
Proof.
  unfold locationEffect. destruct bus, prev; repeat split.
Qed.

Lemma OneFrame_update (Math : MathHost) (bus prev : option GeoPoint)
                      (st : State) :
  OneFrame st -> OneFrame (update Math bus prev st).
Proof.
  intros H. unfold update.
  destruct (locationEffect_keeps_animation Math bus prev st)
    as (La & Lv & Lr & _ & Lp).
  set (st1 := locationEffect Math bus prev st) in *.
  destruct (JS.eqb (degrees st1) (degrees st)) eqn:E.
  - apply Qeq_bool_iff in E.
    destruct H as (Ha & Hq). split; [congruence | ].
    rewrite Lp, La, Lr.
    destruct Hq as [(Hp & He) | (id & t & Hp & Hr & Ht)].
    + left. split; [exact Hp | ]. now rewrite E.
    + right. exists id, t. repeat split; try assumption. now rewrite E.
  - pose proof (OneFrame_queue st H) as Hq. destruct H as (Ha & _).
    apply OneFrame_restart; [congruence | ].
    now rewrite Lp, Lr.
Qed.

Lemma reachable_OneFrame (Math : MathHost) (st : State) :
  reachable Math st -> OneFrame st.
Proof.
  intros R. induction R as [ | bus prev st R IH | st R IH].
  - apply OneFrame_mount.
  - now apply OneFrame_update.
  - now apply OneFrame_runFrame.
Qed.

Lemma setBearing_keeps (bearing : Q) (st : State) :
  degrees (setBearing bearing st) = bearing /\
  direction (setBearing bearing st) = bearingToDirection bearing /\
  animRef (setBearing bearing st) = animRef st /\
  animatedDeg (setBearing bearing st) = animatedDeg st.
Proof.
  unfold setBearing.
  set (st1 := mkState (bearingToDirection bearing) bearing (animatedDeg st)
                      (animRef st) (rafRef st) (nextHandle st) (pending st)).
  destruct (JS.eqb _ _); [repeat split | ].
  destruct (animationEffect_keeps (animationCleanup st1)) as (E1 & E2 & E3 & E4).
  destruct (animationCleanup_keeps st1) as (F1 & F2 & F3 & F4).
  rewrite E1, E2, E3, E4, F1, F2, F3, F4. repeat split.
Qed.

Lemma OneFrame_setBearing (bearing : Q) (st : State) :
  OneFrame st -> OneFrame (setBearing bearing st).
Proof.
  intros H. unfold setBearing.
  set (st1 := mkState (bearingToDirection bearing) bearing (animatedDeg st)
                      (animRef st) (rafRef st) (nextHandle st) (pending st)).
  destruct (JS.eqb (degrees st1) (degrees st)) eqn:E.
  - apply Qeq_bool_iff in E. cbn [st1 degrees] in E.
    destruct H as (Ha & Hq). split; [exact Ha | ].
    cbn [st1 pending animRef rafRef degrees].
    destruct Hq as [(Hp & He) | (id & t & Hp & Hr & Ht)].
    + left. split; [exact Hp | ]. now rewrite E.
    + right. exists id, t. repeat split; try assumption. now rewrite E.
  - pose proof (OneFrame_queue st H) as Hq. destruct H as (Ha & _).
    apply OneFrame_restart; [exact Ha | exact Hq].
Qed.

Lemma tracking_OneFrame (st : State) : tracking st -> OneFrame st.
Proof.
  intros R. induction R as [ | bearing st R IH Hb | st R IH].
  - apply OneFrame_mount.
  - now apply OneFrame_setBearing.
  - now apply OneFrame_runFrame.
Qed.

Lemma tracking_agrees (st : State) :
  tracking st -> direction st = bearingToDirection (degrees st).
Proof.
  intros R. induction R as [ | bearing st R IH Hb | st R IH].
  - reflexivity.
  - destruct (setBearing_keeps bearing st) as (E1 & E2 & _).
    now rewrite E1, E2.
  - destruct (runFrame_keeps_bearing st) as (E1 & E2). now rewrite E1, E2.
Qed.

Lemma runFrames_keeps_bearing (n : nat) (st : State) :
  degrees (runFrames n st) = degrees st /\
  direction (runFrames n st) = direction st.
Proof.
  revert st. induction n as [ | n IH]; intros st; [now split | ].
  cbn [runFrames]. destruct (IH (runFrame st)) as (E1 & E2).
  destruct (runFrame_keeps_bearing st) as (F1 & F2).
  rewrite E1, E2, F1, F2. now split.
Qed.

Lemma state_eta (s : State) :
  mkState (direction s) (degrees s) (animatedDeg s) (animRef s)
          (rafRef s) (nextHandle s) (pending s) = s.
Proof. now destruct s. Qed.

(** X4: in every reachable state at most one [step] is waiting for a
    frame; a waiting one is the one [rafRef] names and its captured target
    is the stored bearing; with none waiting [animRef] equals the bearing;
    and the displayed angle always equals [animRef]. *)
Theorem one_frame_outstanding (Math : MathHost) (st : State) :
  reachable Math st ->
  (List.length (pending st) <= 1)%nat /\
  animatedDeg st = animRef st /\
  (forall f, In f (pending st) ->
     rafRef st = Some (frameId f) /\ frameTarget f == degrees st) /\
  (pending st = [] -> animRef st == degrees st).
Proof.
  intros R.
  destruct (reachable_OneFrame Math st R)
    as (Ha & [(Hp & He) | (id & t & Hp & Hr & Ht)]); rewrite Hp.
  - split; [cbn; lia | ]. split; [exact Ha | ].
    split; [intros f [] | intros _; exact He].
  - split; [cbn; lia | ]. split; [exact Ha | ].
    split; [ | discriminate].
    intros f [<- | []]. split; [exact Hr | exact Ht].
Qed.

Lemma one_frame_outstanding_witness :
  (List.length (pending (update coarseMath (Some eastOfOrigin) (Some origin)
                                (animationEffect initialState))) <= 1)%nat.
Proof.
  apply (one_frame_outstanding coarseMath).
  apply reach_update, reach_mount.
Defined.

(** X5: in a run in which every bearing stored is in [0, 360), from
    every state at most 34 frames later the queue is empty and [animRef]
    and the displayed angle equal the stored bearing, which the frames
    have not changed. *)
Theorem needle_settles_on_bearing (st : State) :
  tracking st ->
  exists n, (n <= 34)%nat /\
    pending (runFrames n st) = [] /\
    animRef (runFrames n st) == degrees st /\
    animatedDeg (runFrames n st) == degrees st /\
    degrees (runFrames n st) = degrees st /\
    direction (runFrames n st) = direction st.
Proof.
  intros R.
  destruct (tracking_Inv st R) as (Hd & Hc & _ & Hf).
  destruct (tracking_OneFrame st R)
    as (Ha & [(Hp & He) | (id & t & Hp & Hr & Ht)]).
  - exists 0%nat. cbn [runFrames]. rewrite Ha.
    repeat split; auto. lia.
  - rewrite Hp in Hf. inversion Hf as [ | f l Hrange _]; subst.
    cbn [frameTarget] in Hrange.
    destruct (runFrames_converge 33 st id t Hc Hrange Hp)
      as (n & Hn & H1 & H2 & H3).
    + pose proof (delta_bounds_in_range t (animRef st) Hc Hrange) as D.
      pose proof reach_33 as B.
      apply Qabs_case; intros; lra.
    + exists n. destruct (runFrames_keeps_bearing n st) as (K1 & K2).
      rewrite H1, H2. repeat split; auto; lia.
Qed.

Lemma needle_settles_on_bearing_witness :
  exists n, (n <= 34)%nat /\
    pending (runFrames n (setBearing 90 (animationEffect initialState))) = [] /\
    animRef (runFrames n (setBearing 90 (animationEffect initialState)))
    == degrees (setBearing 90 (animationEffect initialState)).
Proof.
  destruct (needle_settles_on_bearing
              (setBearing 90 (animationEffect initialState)))
    as (n & Hn & H1 & H2 & _).
  - apply track_bearing; [apply track_mount | ].
    split; vm_compute; congruence.
  - exists n. repeat split; assumption.
Defined.

(** X6: the cleanup of the animation effect, run in any reachable state,
    leaves no callback in the frame queue and [rafRef] null, so no [step]
    runs after the component is gone. *)
Theorem cleanup_leaves_no_frame (Math : MathHost) (st : State) :
  reachable Math st ->
  pending (animationCleanup st) = [] /\
  rafRef (animationCleanup st) = None /\
  forall n, runFrames n (animationCleanup st) = animationCleanup st.
Proof.
  intros R.
  pose proof (cancelPrevious_clears st
                (OneFrame_queue st (reachable_OneFrame Math st R))) as Hc.
  assert (Hp : pending (animationCleanup st) = []) by exact Hc.
  repeat split; [exact Hp | ].
  intros n. now apply runFrames_idle.
Qed.

Lemma cleanup_leaves_no_frame_witness :
  pending (animationCleanup (runFrame (update coarseMath (Some eastOfOrigin)
                                        (Some origin)
                                        (animationEffect initialState)))) = [].
Proof.
  apply (cleanup_leaves_no_frame coarseMath).
  apply reach_frame, reach_update, reach_mount.
Defined.

(** X7: new props never move the needle ([animRef] and the displayed
    angle change only in frames); props with a location missing change
    nothing at all; and the same props a second time change nothing more,
    so a running animation is not restarted by a repeated position. *)
Theorem update_is_idempotent (Math : MathHost) (bus prev : option GeoPoint)
                             (st : State) :
  animRef (update Math bus prev st) = animRef st /\
  animatedDeg (update Math bus prev st) = animatedDeg st /\
  update Math None prev st = st /\
  update Math bus None st = st /\
  update Math bus prev (update Math bus prev st) = update Math bus prev st.
Proof.
  assert (Refl : forall x, JS.eqb x x = true)
    by (intros x; apply eqb_same; reflexivity).
  assert (Keep : animRef (update Math bus prev st) = animRef st /\
                 animatedDeg (update Math bus prev st) = animatedDeg st).
  { unfold update.
    destruct (locationEffect_keeps_animation Math bus prev st) as (La & Lv & _).
    destruct (JS.eqb _ _); [now split | ].
    destruct (animationEffect_keeps
                (animationCleanup (locationEffect Math bus prev st)))
      as (_ & _ & E1 & E2).
    destruct (animationCleanup_keeps (locationEffect Math bus prev st))
      as (_ & _ & F1 & F2).
    rewrite E1, E2, F1, F2. now split. }
  destruct Keep as (K1 & K2).
  split; [exact K1 | ]. split; [exact K2 | ].
  split; [ | split].
  - unfold update. cbn [locationEffect]. now rewrite Refl.
  - unfold update, locationEffect. destruct bus; now rewrite Refl.
  - destruct bus as [b | ], prev as [p | ];
      try (unfold update, locationEffect; now rewrite !Refl).
    destruct (update_keeps_bearing Math (Some b) (Some p) st) as (E1 & E2).
    generalize dependent (update Math (Some b) (Some p) st). intros u _ _ E1 E2.
    assert (L : locationEffect Math (Some b) (Some p) u = u).
    { rewrite <- (state_eta u) at 2. rewrite E1, E2. reflexivity. }
    unfold update. rewrite L. now rewrite Refl.
Qed.

(** X8: for a displayed angle in [0, 360) the number printed,
    [Math.round(animatedDeg)], is a whole number from 0 to 360, and it is
    360 exactly when the angle is 359.5 or more. *)
Theorem degreeText_range (st : State) :
  0 <= animatedDeg st < 360 ->
  (0 <= degreeText st <= 360)%Z /\
  (degreeText st = 360%Z <-> 359.5 <= animatedDeg st).
Proof.
  intros [Hlo Hhi]. unfold degreeText, JS.round.
  pose proof (Qfloor_le (animatedDeg st + (1 # 2))) as L.
  pose proof (Qlt_floor (animatedDeg st + (1 # 2))) as U.
  rewrite inject_Z_plus in U. change (inject_Z 1) with 1 in U.
  set (r := Qfloor (animatedDeg st + (1 # 2))) in *.
  assert (L1 : inject_Z (-1) < inject_Z r)
    by (change (inject_Z (-1)) with (-1#1); lra).
  assert (L2 : inject_Z r < inject_Z 361)
    by (change (inject_Z 361) with 361; lra).
  rewrite <- Zlt_Qlt in L1, L2.
  split; [lia | ]. split.
  - intros E. rewrite E in L. change (inject_Z 360) with 360 in L. lra.
  - intros H.
    assert (L3 : inject_Z 359 < inject_Z r)
      by (change (inject_Z 359) with 359; lra).
    rewrite <- Zlt_Qlt in L3. lia.
Qed.

Lemma degreeText_range_witness :
  degreeText (setAngle 359.7 initialState) = 360%Z.
Proof.
  destruct (degreeText_range (setAngle 359.7 initialState)) as (_ & _ & H).
  - split; vm_compute; congruence.
  - apply H. vm_compute. congruence.
Defined.

(** ** Further properties: the tick marks of the dial *)

(** X9: the dial has 360 tick marks keyed 0..359 in order; exactly the
    four at 0, 90, 180 and 270 are long (12), drawn 1.5 wide in the first
    colour of the gradient; exactly the four at 45, 135, 225 and 315 are
    medium (8): a multiple of 90 is a multiple of 45 too, but is taken by
    the cardinal test first; the other 352 are short (4); medium and short
    marks are 0.5 wide in translucent white. *)
Theorem tickMarks_layout (Math : MathHost) (gradient : string * string) :
  map key (tickMarks Math gradient) = map Z.of_nat (seq 0 360) /\
  NoDup (map key (tickMarks Math gradient)) /\
  map key (filter (fun l => Qeq_bool (strokeWidth l) 1.5)
                  (tickMarks Math gradient)) = [0; 90; 180; 270]%Z /\
  filter (fun i => Qeq_bool (tickLength i) 12) (map Z.of_nat (seq 0 360))
    = [0; 90; 180; 270]%Z /\
  filter (fun i => Qeq_bool (tickLength i) 8) (map Z.of_nat (seq 0 360))
    = [45; 135; 225; 315]%Z /\
  List.length (filter (fun i => Qeq_bool (tickLength i) 4)
                      (map Z.of_nat (seq 0 360))) = 352%nat /\
  forall l, In l (tickMarks Math gradient) ->
    (strokeWidth l = 1.5 /\ stroke l = fst gradient) \/
    (strokeWidth l = 0.5 /\ stroke l = "rgba(255,255,255,0.3)"%string).
Proof.
  assert (K : map key (tickMarks Math gradient) = map Z.of_nat (seq 0 360)).
  { unfold tickMarks. rewrite map_map. reflexivity. }
  split; [exact K | ]. split.
  { rewrite K. apply Finite.Injective_map_NoDup.
    - intros a b. apply Nat2Z.inj.
    - apply seq_NoDup. }
  split; [vm_compute; reflexivity | ].
  split; [vm_compute; reflexivity | ].
  split; [vm_compute; reflexivity | ].
  split; [vm_compute; reflexivity | ].
  intros l Hl. unfold tickMarks in Hl. apply in_map_iff in Hl.
  destruct Hl as (i & <- & _). cbn [tickMark strokeWidth stroke].
  destruct (isCardinal (Z.of_nat i)); [left | right]; split; reflexivity.
Qed.

Lemma tickMarks_layout_witness :
  (strokeWidth (tickMark coarseMath (gradientOf None) 90) = 1.5 /\
   stroke (tickMark coarseMath (gradientOf None) 90) = fst (gradientOf None)) \/
  (strokeWidth (tickMark coarseMath (gradientOf None) 90) = 0.5 /\
   stroke (tickMark coarseMath (gradientOf None) 90)
     = "rgba(255,255,255,0.3)"%string).
Proof.
  destruct (tickMarks_layout coarseMath (gradientOf None))
    as (_ & _ & _ & _ & _ & _ & H).
  apply H. unfold tickMarks. apply in_map_iff.
  exists 90%nat. split; [reflexivity | ]. apply in_seq. lia.
Defined.




(** ** Further properties: bearings along the axes *)








(** ** Further properties: the label in reachable states *)

(** X12: in a run in which every bearing stored is in [0, 360), the
    label held in [direction] is in every state one of the 16 entries of
    the table, never [undefined], across retargets and frames. *)
Theorem direction_is_a_label (st : State) :
  tracking st ->
  exists label, direction st = Some label /\ In label directions.
Proof.
  intros R.
  destruct (tracking_Inv st R) as (Hd & _).
  rewrite (tracking_agrees st R). unfold bearingToDirection.
  pose proof (directionIndex_range (degrees st) Hd) as I.
  destruct (Z.ltb_spec (directionIndex (degrees st)) 0) as [Hneg | _]; [lia | ].
  now apply directions_lookup.
Qed.

Lemma direction_is_a_label_witness :
  exists label,
    direction (runFrame (setBearing 90 (animationEffect initialState)))
      = Some label /\
    In label directions.
Proof.
  apply (direction_is_a_label
           (runFrame (setBearing 90 (animationEffect initialState)))).
  apply track_frame, track_bearing; [apply track_mount | ].
  split; vm_compute; congruence.
Defined.

(** ** Further properties: the two normalisations *)

Lemma Qtrunc_opp (x : Q) : JS.Qtrunc (- x) = (- JS.Qtrunc x)%Z.
Proof.
  destruct x as [n d]. unfold JS.Qtrunc. cbn.
  apply Z.quot_opp_l. lia.
Qed.

Lemma rem_opp (n d : Q) : (- n) %% d == - (n %% d).
Proof.
  unfold JS.rem.
  assert (E : - n / d == - (n / d)) by (unfold Qdiv; ring).
  rewrite (Qtrunc_comp _ _ E), Qtrunc_opp, inject_Z_opp. ring.
Qed.

Lemma rem_range_neg (n d : Q) : n <= 0 -> 0 < d -> - d < n %% d <= 0.
Proof.
  intros Hn Hd.
  assert (E : n == - - n) by ring.
  rewrite E, rem_opp.
  pose proof (rem_range (- n) d) as R. lra.
Qed.

Lemma multiple_small (m : Z) (d : Q) :
  0 < d -> - d < inject_Z m * d < d -> m = 0%Z.
Proof.
  intros Hd [Hlo Hhi].
  assert (L1 : inject_Z (-1) < inject_Z m).
  { change (inject_Z (-1)) with (-1#1).
    destruct (Qlt_le_dec (-1) (inject_Z m)) as [ | C]; [assumption | nra]. }
  assert (L2 : inject_Z m < inject_Z 1).
  { change (inject_Z 1) with 1.
    destruct (Qlt_le_dec (inject_Z m) 1) as [ | C]; [assumption | nra]. }
  rewrite <- Zlt_Qlt in L1, L2. lia.
Qed.

(** X13: the two-step normalisation [((b % 360) + 360) % 360] lands in
    [0, 360) for every number; the one-step [(b + 360) % 360] of
    [calculateBearing] equals it for every [b] from -360 up to, not
    including, 360, and on a [b] below -360 it returns a value that is
    not positive: -400 gives -40 where the two-step form gives 320. *)
Theorem normalizeBearing_one_step :
  (forall b : Q, 0 <= specNormalize b < 360) /\
  (forall b : Q, -360 <= b < 360 -> normalizeBearing b == specNormalize b) /\
  (forall b : Q, b < -360 -> -360 < normalizeBearing b <= 0) /\
  normalizeBearing (-400) == -40 /\ specNormalize (-400) == 320.
Proof.
  assert (Inner : forall b : Q, -360 < b %% 360 < 360).
  { intros b. destruct (Qlt_le_dec b 0) as [Hn | Hp].
    - pose proof (rem_range_neg b 360). lra.
    - pose proof (rem_range b 360). lra. }
  assert (Spec : forall b : Q, 0 <= specNormalize b < 360).
  { intros b. unfold specNormalize. pose proof (Inner b).
    apply rem_range; lra. }
  split; [exact Spec | ]. split; [ | split; [ | split; reflexivity] ].
  - intros b [Hb _].
    pose proof (Spec b) as S.
    pose proof (normalizeBearing_range b Hb) as N.
    unfold normalizeBearing, specNormalize in *.
    pose proof (rem_decomp (b + 360) 360) as E1.
    pose proof (rem_decomp b 360) as E2.
    pose proof (rem_decomp (b %% 360 + 360) 360) as E3.
    set (k1 := JS.Qtrunc ((b + 360) / 360)) in *.
    set (k2 := JS.Qtrunc (b / 360)) in *.
    set (k3 := JS.Qtrunc ((b %% 360 + 360) / 360)) in *.
    set (r1 := (b + 360) %% 360) in *.
    set (r2 := b %% 360) in *.
    set (r3 := (r2 + 360) %% 360) in *.
    assert (M : (k2 + k3 - k1 = 0)%Z).
    { apply (multiple_small _ 360); [reflexivity | ].
      replace (k2 + k3 - k1)%Z with (k2 + k3 + - k1)%Z by lia.
      rewrite !inject_Z_plus, inject_Z_opp. lra. }
    assert (M' : inject_Z k2 + inject_Z k3 - inject_Z k1 == 0).
    { change 0 with (inject_Z 0). rewrite <- M.
      replace (k2 + k3 - k1)%Z with (k2 + k3 + - k1)%Z by lia.
      rewrite !inject_Z_plus, inject_Z_opp. ring. }
    lra.
  - intros b Hb. unfold normalizeBearing.
    pose proof (rem_range_neg (b + 360) 360). lra.
Qed.

Lemma normalizeBearing_one_step_witness :
  normalizeBearing (-350) == specNormalize (-350) /\
  (-360 < normalizeBearing (-500) <= 0).
Proof.
  split.
  - apply (proj1 (proj2 normalizeBearing_one_step) (-350)).
    split; vm_compute; congruence.
  - apply (proj1 (proj2 (proj2 normalizeBearing_one_step)) (-500)). reflexivity.
Defined.
